(** * dumpformatoptions.py: a shallow embedding

    The script reads the option declarations of a C++ header with a
    line-driven state machine ([read_options]), renders them as
    reStructuredText ([Option.__str__] and friends) and splices the result
    into a document between two marker lines ([substitute]).

    Text is modelled as [list ascii]: Python 3 strings whose code points
    are below 256.  The two library services the script leans on, the
    backtracking matcher of [re] and the [%] operator of [str], are
    modelled first (CPython 3 behaviour); the functions of the script
    follow, in the order of the source file. *)

From Stdlib Require Import List Ascii String ZArith Lia Bool Arith.
From stdpp Require Import gmap.
Import ListNotations.

Local Open Scope list_scope.
Local Open Scope nat_scope.

(* ===================================================================== *)
(** * Text *)
(* ===================================================================== *)

Module Py.

(** A Python string. *)
Definition str : Type := list ascii.

(** String literals of the source are written [L "..."]. *)
Definition L (s : string) : str := list_ascii_of_string s.

Definition nl : ascii := ascii_of_nat 10.
Definition bslash : ascii := ascii_of_nat 92.
Definition percent : ascii := ascii_of_nat 37.

Definition code (c : ascii) : nat := nat_of_ascii c.

Definition between (lo hi : nat) (c : ascii) : bool :=
  (lo <=? code c) && (code c <=? hi).

Definition is_char (a c : ascii) : bool := Ascii.eqb a c.
#[global] Arguments is_char : simpl never.

Definition one_of (s : string) (c : ascii) : bool :=
  existsb (is_char c) (L s).

(** [str.isspace] on one character, and the class [\s] of [re]. *)
Definition isspace (c : ascii) : bool :=
  between 9 13 c || between 28 32 c || (code c =? 133) || (code c =? 160).

(** The class [\w] of [re] on a [str] pattern. *)
Definition isword (c : ascii) : bool :=
  between 48 57 c || between 65 90 c || (code c =? 95) || between 97 122 c
  || (code c =? 170) || between 178 179 c || (code c =? 181)
  || between 185 186 c || between 188 190 c || between 192 214 c
  || between 216 246 c || between 248 255 c.

Definition isdigit (c : ascii) : bool := between 48 57 c.

(** [str.isprintable] on one character. *)
Definition isprintable (c : ascii) : bool :=
  between 32 126 c || between 161 172 c || between 174 255 c.

(** [s.startswith(p)] *)
Fixpoint startswith (p s : str) : bool :=
  match p, s with
  | [], _ => true
  | a :: p', c :: s' => is_char a c && startswith p' s'
  | _ :: _, [] => false
  end.

(** [s.endswith(p)] *)
Definition endswith (p s : str) : bool := startswith (rev p) (rev s).

(** [s == t] *)
Fixpoint eqs (s t : str) : bool :=
  match s, t with
  | [], [] => true
  | a :: s', b :: t' => is_char a b && eqs s' t'
  | _, _ => false
  end.

(** [s.lstrip()], [s.strip()] *)
Fixpoint lstrip (s : str) : str :=
  match s with
  | c :: s' => if isspace c then lstrip s' else s
  | [] => []
  end.

Definition strip (s : str) : str := rev (lstrip (rev (lstrip s))).

(** [s.replace(c, '')] for a one-character [c] *)
Definition remove_char (c : ascii) (s : str) : str :=
  List.filter (fun x => negb (is_char c x)) s.

(** [sep.join(parts)] *)
Fixpoint join (sep : str) (parts : list str) : str :=
  match parts with
  | [] => []
  | [p] => p
  | p :: ps => p ++ sep ++ join sep ps
  end.

(** [' ' * n] for an integer [n]: empty when [n] is not positive. *)
Definition spaces (n : Z) : str := repeat " "%char (Z.to_nat n).

(** ** Exceptions *)

Inductive exn : Type :=
| Exception (msg : str)   (* [raise Exception(msg)] of the script *)
| TypeError               (* raised by [%] *)
| ValueError              (* raised by [%] *)
| AttributeError.         (* [None.groups()], [None.values] *)

Inductive result (A : Type) : Type :=
| Ok (a : A)
| Raise (e : exn).
Arguments Ok {A} a.
Arguments Raise {A} e.

Definition bind {A B} (r : result A) (f : A -> result B) : result B :=
  match r with
  | Ok a => f a
  | Raise e => Raise e
  end.

Definition raises {A} (r : result A) : bool :=
  match r with Ok _ => false | Raise _ => true end.

End Py.

Import Py.

Declare Scope py_scope.
Delimit Scope py_scope with py.
Notation "'let!' x ':=' r 'in' k" := (bind r (fun x => k))
  (at level 10, x name, r at level 100, k at level 200) : py_scope.
Local Open Scope py_scope.

(* ===================================================================== *)
(** * The matcher of [re] *)
(* ===================================================================== *)

Module Re.

(** The fragment of the pattern language that the script uses.  A
    repetition is always over a single-character class there, which keeps
    the matcher structurally recursive. *)
Inductive regex : Type :=
| Eps                                 (* the empty pattern *)
| Chr (c : ascii)                     (* a literal character *)
| Cls (p : ascii -> bool)             (* [.], [\s], [\w], [[...]] *)
| Star (greedy : bool) (p : ascii -> bool)   (* [p*] and [p*?] *)
| Seq (r1 r2 : regex)
| Opt (r : regex)                     (* [(...)?], greedy *)
| Grp (n : nat) (r : regex)           (* the capturing group number [n] *)
| Eos.                                (* [$] without MULTILINE *)

(** [.] without DOTALL and with it. *)
Definition dot (c : ascii) : bool := negb (is_char nl c).
Definition dotall (c : ascii) : bool := true.

(** A literal string, a sequence of patterns, and [p+]. *)
Fixpoint Lit (s : str) : regex :=
  match s with
  | [] => Eps
  | c :: s' => Seq (Chr c) (Lit s')
  end.

Definition Cat (rs : list regex) : regex := fold_right Seq Eps rs.

Definition Plus (p : ascii -> bool) : regex := Seq (Cls p) (Star true p).

(** Captured groups: [None] for a group that took no part in the match. *)
Definition groups : Type := nat -> option str.
Definition no_groups : groups := fun _ => None.
Definition set_group (n : nat) (v : str) (g : groups) : groups :=
  fun i => if i =? n then Some v else g i.

(** First success wins: the order of the alternatives is the order in
    which the backtracking matcher tries them. *)
Definition orelse {A} (x y : option A) : option A :=
  match x with
  | Some a => Some a
  | None => y
  end.

Section Matcher.
Context {A : Type}.

  (** [k] is the rest of the pattern: it receives the unread text and the
      groups captured so far, and answers [None] to ask for
      backtracking. *)
Definition cont : Type := str -> groups -> option A.

  (** Greedy [p*]: as many characters as possible first. *)
Fixpoint star_greedy (p : ascii -> bool) (s : str) (g : groups) (k : cont)
    : option A :=
    match s with
    | c :: s' =>
        if p c then orelse (star_greedy p s' g k) (k s g) else k s g
    | [] => k [] g
    end.

  (** Lazy [p*?]: as few characters as possible first. *)
Fixpoint star_lazy (p : ascii -> bool) (s : str) (g : groups) (k : cont)
    : option A :=
    orelse (k s g)
           match s with
           | c :: s' => if p c then star_lazy p s' g k else None
           | [] => None
           end.

Fixpoint run (r : regex) (s : str) (g : groups) (k : cont) : option A :=
    match r with
    | Eps => k s g
    | Chr a =>
        match s with
        | c :: s' => if is_char a c then k s' g else None
        | [] => None
        end
    | Cls p =>
        match s with
        | c :: s' => if p c then k s' g else None
        | [] => None
        end
    | Star true p => star_greedy p s g k
    | Star false p => star_lazy p s g k
    | Seq r1 r2 => run r1 s g (fun s' g' => run r2 s' g' k)
    | Opt r' => orelse (run r' s g k) (k s g)
    | Grp n r' =>
        run r' s g
            (fun s' g' =>
               k s' (set_group n (firstn (length s - length s') s) g'))
    | Eos =>
        if eqs s [] || eqs s [nl] then k s g else None
    end.
End Matcher.

(** One attempt at the head of [s]; the answer is the unread text and the
    groups.  With [advance] an empty match is refused (the matcher then
    backtracks), as [re.sub] asks right after an empty match. *)
Definition match_here (r : regex) (advance : bool) (s : str)
  : option (str * groups) :=
  run r s no_groups
      (fun s' g =>
         if advance && (length s' =? length s) then None else Some (s', g)).

(** [re.match(r, s)]: one attempt, at index 0. A leading [^] of the
    pattern holds there and is left out of the [regex]. *)
Definition re_match (r : regex) (s : str) : option groups :=
  match match_here r false s with
  | Some (_, g) => Some g
  | None => None
  end.

(** Replacement templates: literal text and group references [\1]. *)
Inductive piece : Type :=
| Text (s : str)
| Ref (n : nat).

Definition expand (t : list piece) (g : groups) : str :=
  flat_map (fun p => match p with
                     | Text s => s
                     | Ref n => match g n with Some v => v | None => [] end
                     end) t.

(** [re.sub(r, t, s)].  [inside] counts the characters of [s] that still
    belong to the match found last.  Behind a match the scan goes on, at
    the end of [s] too, where only the empty match is left to find; after
    an empty match the same index is tried once more for a match that
    advances. *)
Fixpoint sub_from (r : regex) (t : list piece) (inside : nat) (s : str)
  : str :=
  match inside with
  | S n =>
      match s with
      | [] => []
      | _ :: s' => sub_from r t n s'
      end
  | 0 =>
      let skip (s : str) :=
        match s with
        | [] => []
        | c :: s' => c :: sub_from r t 0 s'
        end in
      let found (s' : str) (g : groups) (otherwise : str) :=
        match length s - length s', s with
        | S n, _ :: rest => expand t g ++ sub_from r t n rest
        | _, _ => otherwise
        end in
      match match_here r false s with
      | None => skip s
      | Some (s', g) =>
          found s' g
                (expand t g ++
                 match s with
                 | [] => []
                 | _ =>
                     match match_here r true s with
                     | None => skip s
                     | Some (s'', g') => found s'' g' (skip s)
                     end
                 end)
      end
  end.

Definition re_sub (r : regex) (t : list piece) (s : str) : str :=
  sub_from r t 0 s.

End Re.

Import Re.

(* ===================================================================== *)
(** * The [%] operator of [str] *)
(* ===================================================================== *)

Module Fmt.

(** [repr(s)] and [ascii(s)]: the quote is ["] only when [s] holds a ['] and
    no ["]; what is not printable is escaped. *)
Definition hexdigit (n : nat) : ascii :=
  nth n (L "0123456789abcdef") "0"%char.

Definition escape (only_ascii : bool) (quote c : ascii) : str :=
  if is_char bslash c || is_char quote c then [bslash; c]
  else if is_char (ascii_of_nat 9) c then L "\t"
  else if is_char nl c then L "\n"
  else if is_char (ascii_of_nat 13) c then L "\r"
  else if (if only_ascii then between 32 126 c else isprintable c) then [c]
  else bslash :: "x"%char :: [hexdigit (code c / 16); hexdigit (code c mod 16)].

Definition repr_with (only_ascii : bool) (s : str) : str :=
  let single : ascii := "'"%char in
  let double : ascii := ascii_of_nat 34 in
  let quote :=
    if existsb (is_char single) s && negb (existsb (is_char double) s)
    then double else single in
  quote :: flat_map (escape only_ascii quote) s ++ [quote].

Definition repr : str -> str := repr_with false.
Definition ascii_repr : str -> str := repr_with true.

(** Where the scan of the format string stands.  Inside a conversion
    specifier the fields read so far are carried along: the [-] flag, the
    minimum width and the precision. *)
Inductive phase : Type :=
| Plain                                   (* outside a specifier *)
| Start                                   (* just after [%] *)
| Flags (ljust : bool)
| Width (ljust : bool) (w : N)
| Dot (ljust : bool) (w : option N)       (* just after [.] *)
| Prec (ljust : bool) (w : option N) (p : N)
| Conv (ljust : bool) (w : option N) (p : option N). (* after h, l or L *)

(** [sys.maxsize] and the largest C [int]: a larger width, and a larger
    precision, is refused. *)
Definition maxsize : N := 2 ^ 63 - 1.
Definition int_max : N := 2 ^ 31 - 1.

Definition digit (c : ascii) : N := N.of_nat (code c - 48).

Definition pad (ljust : bool) (w : option N) (s : str) : str :=
  let fill := repeat " "%char (N.to_nat (match w with Some n => n | None => 0 end)
                               - length s) in
  if ljust then s ++ fill else fill ++ s.

Definition truncate (p : option N) (s : str) : str :=
  match p with
  | Some n => firstn (N.to_nat n) s
  | None => s
  end.

Section WithArgument.
  (** The right operand: one string, not a tuple. *)
Variable arg : str.

  (** What a character does: text to emit, the next phase, and whether
      the argument has been used up. *)
Definition action : Type := result (str * phase * bool).

  (** The conversion character [c] itself. The argument is fetched first;
      it must still be there. *)
Definition convert (ljust : bool) (w p : option N) (used : bool) (c : ascii)
    : action :=
    if used then Raise TypeError          (* not enough arguments *)
    else if is_char "s" c then Ok (pad ljust w (truncate p arg), Plain, true)
    else if is_char "r" c then
      Ok (pad ljust w (truncate p (repr arg)), Plain, true)
    else if is_char "a" c then
      Ok (pad ljust w (truncate p (ascii_repr arg)), Plain, true)
    else if is_char "c" c then
      if length arg =? 1 then Ok (pad ljust w arg, Plain, true)
      else Raise TypeError                (* %c requires int or char *)
    else if one_of "diouxXeEfFgG" c then
      Raise TypeError                     (* a number is required *)
    else Raise ValueError.                (* unsupported format character *)

Definition after_prec (ljust : bool) (w p : option N) (used : bool)
             (c : ascii) : action :=
    if one_of "hlL" c then Ok ([], Conv ljust w p, used)
    else convert ljust w p used c.

Definition after_width (ljust : bool) (w : option N) (used : bool)
             (c : ascii) : action :=
    if is_char "." c then Ok ([], Dot ljust w, used)
    else after_prec ljust w None used c.

Definition after_flags (ljust : bool) (used : bool) (c : ascii) : action :=
    if is_char "*" c then Raise TypeError (* * wants int *)
    else if isdigit c then Ok ([], Width ljust (digit c), used)
    else after_width ljust None used c.

Definition flag (ljust : bool) (used : bool) (c : ascii) : action :=
    if is_char "-" c then Ok ([], Flags true, used)
    else if one_of "+ #0" c then Ok ([], Flags ljust, used)
    else after_flags ljust used c.

Definition feed (ph : phase) (used : bool) (c : ascii) : action :=
    match ph with
    | Plain =>
        if is_char percent c then Ok ([], Start, used)
        else Ok ([c], Plain, used)
    | Start =>
        if is_char percent c then Ok ([percent], Plain, used)
        else if is_char "(" c then Raise TypeError (* format requires a mapping *)
        else flag false used c
    | Flags ljust => flag ljust used c
    | Width ljust w =>
        if isdigit c then
          if (N.div (maxsize - digit c) 10 <? w)%N
          then Raise ValueError           (* width too big *)
          else Ok ([], Width ljust (w * 10 + digit c)%N, used)
        else after_width ljust (Some w) used c
    | Dot ljust w =>
        if is_char "*" c then Raise TypeError
        else if isdigit c then Ok ([], Prec ljust w (digit c), used)
        else after_prec ljust w (Some 0%N) used c
    | Prec ljust w p =>
        if isdigit c then
          if (N.div (int_max - digit c) 10 <? p)%N
          then Raise ValueError           (* precision too big *)
          else Ok ([], Prec ljust w (p * 10 + digit c)%N, used)
        else after_prec ljust w (Some p) used c
    | Conv ljust w p => convert ljust w p used c
    end.

  (** The scan.  At the end a pending specifier is an incomplete format,
      and an argument that no specifier took is an error as well. *)
Fixpoint scan (ph : phase) (used : bool) (fmt : str) : result str :=
    match fmt with
    | [] =>
        match ph with
        | Plain => if used then Ok [] else Raise TypeError
        | _ => Raise ValueError
        end
    | c :: fmt' =>
        let! step := feed ph used c in
        let '(out, ph', used') := step in
        let! rest := scan ph' used' fmt' in
        Ok (out ++ rest)
    end.
End WithArgument.

(** [fmt % arg] for a string [arg]. *)
Definition format (fmt arg : str) : result str := scan arg Plain false fmt.

End Fmt.

(* ===================================================================== *)
(** * The script *)
(* ===================================================================== *)

(** ** [substitute]

    The tag is spliced into the pattern as it is.  The embedding reads it
    as literal text, which is what [re] does for a tag made of letters,
    digits and underscores ([plain_tag]); the statements about
    [substitute] are made for such tags. *)
Definition plain_tag (tag : str) : bool :=
  forallb (fun c => between 48 57 c || between 65 90 c || between 97 122 c
                    || is_char "_" c) tag.

Definition start_marker (tag : str) : str :=
  [nl] ++ L ".. START_" ++ tag ++ [nl].

Definition end_marker (tag : str) : str :=
  [nl] ++ L ".. END_" ++ tag ++ [nl].

Definition region_pattern (tag : str) : regex :=
  Cat [Lit (start_marker tag); Star true dotall; Lit (end_marker tag)].

Definition substitute (text tag contents : str) : result str :=
  let replacement :=
    [nl] ++ L ".. START_" ++ tag ++ [nl; nl] ++ contents
         ++ [nl; nl] ++ L ".. END_" ++ tag ++ [nl] in
  let pattern := region_pattern tag in
  Fmt.format (re_sub pattern [Text (L "%s")] text) replacement.

(** ** [doxygen2rst] *)

Definition tt_pattern : regex :=
  Cat [Lit (L "<tt>"); Star true isspace; Grp 1 (Star false dot);
       Star true isspace; Lit (L "</tt>")].

Definition c_pattern : regex :=
  Cat [Chr bslash; Chr "c"; Chr " ";
       Grp 1 (Plus (fun c => negb (one_of " ,;." c)))].

Definition command_pattern : regex :=
  Cat [Chr bslash; Plus isword; Chr " "].

Definition code_span : list piece := [Text (L "``"); Ref 1; Text (L "``")].

Definition doxygen2rst (text : str) : str :=
  let text := re_sub tt_pattern code_span text in
  let text := re_sub c_pattern code_span text in
  let text := re_sub command_pattern [] text in
  text.

(** ** [indent] *)

Definition line_start_pattern : regex :=
  Cat [Chr nl; Grp 1 (Cls (fun c => negb (is_char nl c)))].

Definition indent (text : str) (columns : Z) (indent_first_line : bool) : str :=
  let indent := spaces columns in
  let s := re_sub line_start_pattern [Text ([nl] ++ indent); Ref 1] text in
  if negb indent_first_line || startswith [nl] s then s
  else indent ++ s.

(** ** The model classes

    A format string of the source whose specifiers are all [%s], applied
    to a tuple of strings, is written as the concatenation it yields. *)

Module EnumValue.
Record t : Type := { name : str; comment : str }.

Definition __init__ (name comment : str) : t :=
    {| name := name; comment := comment |}.

Definition prefix_pattern : regex := Cat [Star true dot; Chr "_"].

Definition __str__ (self : t) : str :=
    L "* ``" ++ name self ++ L "`` (in configuration: ``"
      ++ re_sub prefix_pattern [] (name self) ++ L "``)" ++ [nl]
      ++ doxygen2rst (indent (comment self) 2 true).
End EnumValue.

Module Enum.
Record t : Type :=
    { name : str; comment : str; values : list EnumValue.t }.

Definition __init__ (name comment : str) : t :=
    {| name := name; comment := strip comment; values := [] |}.

Definition __str__ (self : t) : str :=
    join [nl] (map EnumValue.__str__ (values self)).

  (** [self.values.append(v)] *)
Definition append (self : t) (v : EnumValue.t) : t :=
    {| name := name self; comment := comment self;
       values := values self ++ [v] |}.
End Enum.

Module NestedField.
Record t : Type := { name : str; comment : str }.

Definition __init__ (name comment : str) : t :=
    {| name := name; comment := strip comment |}.

Definition __str__ (self : t) : str :=
    [nl] ++ L "* ``" ++ name self ++ L "`` "
         ++ doxygen2rst (indent (comment self) 2 false).
End NestedField.

Module NestedStruct.
Record t : Type :=
    { name : str; comment : str; values : list NestedField.t }.

Definition __init__ (name comment : str) : t :=
    {| name := name; comment := strip comment; values := [] |}.

Definition __str__ (self : t) : str :=
    join [nl] (map NestedField.__str__ (values self)).

Definition append (self : t) (v : NestedField.t) : t :=
    {| name := name self; comment := comment self;
       values := values self ++ [v] |}.
End NestedStruct.

Module Option.
Record t : Type :=
    { name : str; type : str; comment : str;
      enum : option Enum.t; nested_struct : option NestedStruct.t }.

Definition __init__ (name type comment : str) : t :=
    {| name := name; type := type; comment := strip comment;
       enum := None; nested_struct := None |}.

Definition __str__ (self : t) : str :=
    let s := L "**" ++ name self ++ L "** (``" ++ type self ++ L "``)" ++ [nl]
               ++ doxygen2rst (indent (comment self) 2 true) in
    let s :=
      match enum self with
      | Some e =>
          s ++ indent ([nl; nl] ++ L "Possible values:" ++ [nl; nl]
                         ++ Enum.__str__ e ++ [nl]) 2 true
      | None => s
      end in
    let s :=
      match nested_struct self with
      | Some n =>
          s ++ indent ([nl; nl] ++ L "Nested configuration flags:" ++ [nl; nl]
                         ++ NestedStruct.__str__ n ++ [nl]) 2 true
      | None => s
      end in
    s.

  (** [option.enum = e] and [option.nested_struct = n] *)
Definition set_enum (self : t) (e : Enum.t) : t :=
    {| name := name self; type := type self; comment := comment self;
       enum := Some e; nested_struct := nested_struct self |}.

Definition set_nested_struct (self : t) (n : NestedStruct.t) : t :=
    {| name := name self; type := type self; comment := comment self;
       enum := enum self; nested_struct := Some n |}.
End Option.

(** ** [clean_comment_line] *)

Definition code_pattern : regex :=
  Cat [Lit (L "/// \code");
       Opt (Grp 1 (Cat [Chr "{"; Cls dot; Grp 2 (Plus isword); Chr "}"]));
       Eos].

Definition clean_comment_line (line : str) : str :=
  match re_match code_pattern line with
  | Some groups =>
      let lang := match groups 2 with
                  | Some (c :: l) => c :: l
                  | _ => L "c++"
                  end in
      [nl] ++ L ".. code-block:: " ++ lang ++ [nl; nl]
  | None =>
      if eqs line (L "/// \endcode") then []
      else skipn 4 line ++ [nl]
  end.

(** ** [read_options] *)

Module ReadOptions.

Inductive State : Type :=
  | BeforeStruct | Finished | InStruct | InNestedStruct | InNestedFieldComent
  | InFieldComment | InEnum | InEnumMemberComment.

  (** The local variables of the function. *)
Record vars : Type :=
    { state : State;
      options : list Option.t;
      enums : gmap str Enum.t;
      nested_structs : gmap str NestedStruct.t;
      comment : str;
      enum : option Enum.t;
      nested_struct : option NestedStruct.t }.

Definition initial : vars :=
    {| state := BeforeStruct; options := []; enums := ∅;
       nested_structs := ∅; comment := []; enum := None;
       nested_struct := None |}.

Definition set_state (x : State) (v : vars) : vars :=
    {| state := x; options := options v; enums := enums v;
       nested_structs := nested_structs v; comment := comment v;
       enum := enum v; nested_struct := nested_struct v |}.

Definition set_options (x : list Option.t) (v : vars) : vars :=
    {| state := state v; options := x; enums := enums v;
       nested_structs := nested_structs v; comment := comment v;
       enum := enum v; nested_struct := nested_struct v |}.

Definition set_enums (x : gmap str Enum.t) (v : vars) : vars :=
    {| state := state v; options := options v; enums := x;
       nested_structs := nested_structs v; comment := comment v;
       enum := enum v; nested_struct := nested_struct v |}.

Definition set_nested_structs (x : gmap str NestedStruct.t) (v : vars)
    : vars :=
    {| state := state v; options := options v; enums := enums v;
       nested_structs := x; comment := comment v;
       enum := enum v; nested_struct := nested_struct v |}.

Definition set_comment (x : str) (v : vars) : vars :=
    {| state := state v; options := options v; enums := enums v;
       nested_structs := nested_structs v; comment := x;
       enum := enum v; nested_struct := nested_struct v |}.

Definition set_enum (x : option Enum.t) (v : vars) : vars :=
    {| state := state v; options := options v; enums := enums v;
       nested_structs := nested_structs v; comment := comment v;
       enum := x; nested_struct := nested_struct v |}.

Definition set_nested_struct (x : option NestedStruct.t) (v : vars) : vars :=
    {| state := state v; options := options v; enums := enums v;
       nested_structs := nested_structs v; comment := comment v;
       enum := enum v; nested_struct := x |}.

  (** The patterns of the loop body. *)
Definition enum_pattern : regex :=
    Cat [Lit (L "enum"); Plus isspace; Grp 1 (Plus isword); Star true isspace;
         Opt (Grp 2 (Cat [Chr ":"; Star true isspace; Plus isword;
                          Star true isspace]));
         Chr "{"].

Definition struct_pattern : regex :=
    Cat [Lit (L "struct"); Plus isspace; Grp 1 (Plus isword);
         Star true isspace; Chr "{"].

Definition field_pattern : regex :=
    Cat [Grp 1 (Plus (fun c => one_of "<>:(,)" c || isword c || isspace c));
         Plus isspace; Grp 2 (Plus isword); Chr ";"].

Definition format_error_field : exn :=
    Exception (L "Invalid format, expected comment, field or enum").
Definition format_error_enum : exn :=
    Exception (L "Invalid format, expected enum field comment or };").
Definition not_finished : exn :=
    Exception (L "Not finished by the end of file").
Definition unknown_type (type : str) : exn :=
    Exception (L "Unknown type: " ++ type).

  (** How an iteration of the loop ends. *)
Inductive flow : Type := Continue | Break.

  (** The body of [for line in header]. *)
Definition body (v : vars) (line : str) : result (flow * vars) :=
    let line := strip line in
    let doc := startswith (L "///") line in
    match state v with
    | BeforeStruct =>
        if eqs line (L "struct FormatStyle {")
           || eqs line (L "struct IncludeStyle {")
        then Ok (Continue, set_state InStruct v)
        else Ok (Continue, v)
    | InStruct =>
        if doc then
          Ok (Continue,
              set_comment (clean_comment_line line) (set_state InFieldComment v))
        else if eqs line (L "};") then Ok (Break, set_state Finished v)
        else Ok (Continue, v)
    | InFieldComment =>
        if doc then
          Ok (Continue, set_comment (comment v ++ clean_comment_line line) v)
        else if startswith (L "enum") line then
          let name := re_sub enum_pattern [Ref 1] line in
          Ok (Continue,
              set_enum (Some (Enum.__init__ name (comment v)))
                       (set_state InEnum v))
        else if startswith (L "struct") line then
          let name := re_sub struct_pattern [Ref 1] line in
          Ok (Continue,
              set_nested_struct (Some (NestedStruct.__init__ name (comment v)))
                                (set_state InNestedStruct v))
        else if startswith (L "//") line && endswith (L ";") line then
          Ok (Continue, set_state InStruct v)
        else if endswith (L ";") line then
          match re_match field_pattern line with
          | None => Raise AttributeError
          | Some groups =>
              let field_type := default [] (groups 1) in
              let field_name := default [] (groups 2) in
              let option := Option.__init__ field_name field_type (comment v) in
              Ok (Continue,
                  set_options (options v ++ [option]) (set_state InStruct v))
          end
        else Raise format_error_field
    | InNestedStruct =>
        if doc then
          Ok (Continue,
              set_comment (clean_comment_line line)
                          (set_state InNestedFieldComent v))
        else if eqs line (L "};") then
          match nested_struct v with
          | None => Raise AttributeError
          | Some n =>
              Ok (Continue,
                  set_nested_structs
                    (<[NestedStruct.name n := n]> (nested_structs v))
                    (set_state InStruct v))
          end
        else Ok (Continue, v)
    | InNestedFieldComent =>
        if doc then
          Ok (Continue, set_comment (comment v ++ clean_comment_line line) v)
        else
          match nested_struct v with
          | None => Raise AttributeError
          | Some n =>
              let field :=
                NestedField.__init__ (remove_char ";" line) (comment v) in
              Ok (Continue,
                  set_nested_struct (Some (NestedStruct.append n field))
                                    (set_state InNestedStruct v))
          end
    | InEnum =>
        if doc then
          Ok (Continue,
              set_comment (clean_comment_line line)
                          (set_state InEnumMemberComment v))
        else if eqs line (L "};") then
          match enum v with
          | None => Raise AttributeError
          | Some e =>
              Ok (Continue,
                  set_enums (<[Enum.name e := e]> (enums v))
                            (set_state InStruct v))
          end
        else if eqs line [] then Ok (Continue, v)
        else Raise format_error_enum
    | InEnumMemberComment =>
        if doc then
          Ok (Continue, set_comment (comment v ++ clean_comment_line line) v)
        else
          match enum v with
          | None => Raise AttributeError
          | Some e =>
              let value := EnumValue.__init__ (remove_char "," line) (comment v) in
              Ok (Continue,
                  set_enum (Some (Enum.append e value)) (set_state InEnum v))
          end
    | Finished => Ok (Continue, v)
    end.

  (** [for line in header: ...], left at the end of [header] or by
      [break]. *)
Fixpoint loop (v : vars) (header : list str) : result vars :=
    match header with
    | [] => Ok v
    | line :: rest =>
        let! next := body v line in
        match next with
        | (Break, v') => Ok v'
        | (Continue, v') => loop v' rest
        end
    end.

  (** The body of [for option in options]. *)
Definition resolve (isknownoptiontype_func : str -> bool) (v : vars)
             (option : Option.t) : result Option.t :=
    if negb (isknownoptiontype_func (Option.type option)) then
      match enums v !! Option.type option with
      | Some e => Ok (Option.set_enum option e)
      | None =>
          match nested_structs v !! Option.type option with
          | Some n => Ok (Option.set_nested_struct option n)
          | None => Raise (unknown_type (Option.type option))
          end
      end
    else Ok option.

Fixpoint resolve_all (isknownoptiontype_func : str -> bool) (v : vars)
           (options : list Option.t) : result (list Option.t) :=
    match options with
    | [] => Ok []
    | option :: rest =>
        let! option' := resolve isknownoptiontype_func v option in
        let! rest' := resolve_all isknownoptiontype_func v rest in
        Ok (option' :: rest')
    end.

  (** What follows the loop. *)
Definition finish (isknownoptiontype_func : str -> bool) (v : vars)
    : result (list Option.t) :=
    match state v with
    | Finished => resolve_all isknownoptiontype_func v (options v)
    | _ => Raise not_finished
    end.

End ReadOptions.

Definition read_options (header : list str)
           (isknownoptiontype_func : str -> bool) : result (list Option.t) :=
  let! v := ReadOptions.loop ReadOptions.initial header in
  ReadOptions.finish isknownoptiontype_func v.

(** The rest of [read_options] once the loop variables are [v] and the
    lines [rest] are still to be read. *)
Definition resume (v : ReadOptions.vars) (rest : list str)
           (isknownoptiontype_func : str -> bool) : result (list Option.t) :=
  let! v' := ReadOptions.loop v rest in
  ReadOptions.finish isknownoptiontype_func v'.

(* ===================================================================== *)
(** * Vocabulary of the statements *)
(* ===================================================================== *)

(** [s.find(p)] and [s.rfind(p)]: the index of the first and of the last
    occurrence of [p] in [s]. *)
Fixpoint find (p s : str) : option nat :=
  if startswith p s then Some 0
  else match s with
       | [] => None
       | _ :: s' => option_map S (find p s')
       end.

Fixpoint rfind (p s : str) : option nat :=
  match s with
  | [] => if startswith p [] then Some 0 else None
  | _ :: s' =>
      match rfind p s' with
      | Some j => Some (S j)
      | None => if startswith p s then Some 0 else None
      end
  end.

(** [p in s] *)
Definition contains (p s : str) : bool :=
  match find p s with Some _ => true | None => false end.

(** The text has an anchored region for [tag]: a begin marker and, after
    its end, an end marker. *)
Definition has_region (tag text : str) : bool :=
  match find (start_marker tag) text, rfind (end_marker tag) text with
  | Some i, Some j => i + length (start_marker tag) <=? j
  | _, _ => false
  end.

(** What follows the last underscore of [s]; all of [s] when it has
    none. *)
Fixpoint after_last_underscore (s : str) : str :=
  match s with
  | [] => []
  | _ :: s' =>
      if existsb (is_char "_") s then after_last_underscore s' else s
  end.

(** No line break inside [s]: what a line of the header is, and with it
    every name cut out of one. *)
Definition single_line (s : str) : bool := negb (existsb (is_char nl) s).

(** The names of the enumeration values held by the loop variables are
    single lines, and no option has its enumeration attached yet. *)
Definition names_single_line (v : ReadOptions.vars) : Prop :=
  Forall (fun o => Option.enum o = None) (ReadOptions.options v)
  /\ (forall e, ReadOptions.enum v = Some e ->
                Forall (fun x => single_line (EnumValue.name x) = true)
                       (Enum.values e))
  /\ map_Forall
       (fun _ e => Forall (fun x => single_line (EnumValue.name x) = true)
                          (Enum.values e))
       (ReadOptions.enums v).

(** A pattern that can match the empty text. *)
Fixpoint nullable (r : regex) : bool :=
  match r with
  | Eps | Star _ _ | Opt _ | Eos => true
  | Chr _ | Cls _ => false
  | Seq r1 r2 => nullable r1 && nullable r2
  | Grp _ r' => nullable r'
  end.

(** The characters that the field pattern takes for a type:
    [[<>:\w(,\s)]]. *)
Definition type_char (c : ascii) : bool :=
  one_of "<>:(,)" c || isword c || isspace c.

(** A line with the indentation in front, unless the line is empty. *)
Definition indent_line (columns : Z) (line : str) : str :=
  match line with
  | [] => []
  | _ => spaces columns ++ line
  end.

(** A documentation line. *)
Definition doc_line (line : str) : bool := startswith (L "///") (strip line).

(** The two registries are keyed by the names of what they hold, no
    enumeration value has a comma in its name and no nested field a
    semicolon. *)
Definition registries_ok (v : ReadOptions.vars) : Prop :=
  (forall k e, ReadOptions.enums v !! k = Some e ->
               Enum.name e = k
               /\ Forall (fun x => existsb (is_char ",") (EnumValue.name x)
                                   = false) (Enum.values e))
  /\ (forall e, ReadOptions.enum v = Some e ->
                Forall (fun x => existsb (is_char ",") (EnumValue.name x)
                                 = false) (Enum.values e))
  /\ (forall k n, ReadOptions.nested_structs v !! k = Some n ->
                  NestedStruct.name n = k
                  /\ Forall (fun x => existsb (is_char ";")
                                              (NestedField.name x) = false)
                            (NestedStruct.values n))
  /\ (forall n, ReadOptions.nested_struct v = Some n ->
                Forall (fun x => existsb (is_char ";") (NestedField.name x)
                                 = false) (NestedStruct.values n)).

(** The state in which the comment that starts in state [s] is collected. *)
Definition collecting (s : ReadOptions.State) : option ReadOptions.State :=
  match s with
  | ReadOptions.InStruct => Some ReadOptions.InFieldComment
  | ReadOptions.InNestedStruct => Some ReadOptions.InNestedFieldComent
  | ReadOptions.InEnum => Some ReadOptions.InEnumMemberComment
  | _ => None
  end.

(** The text of a block of documentation lines. *)
Definition cleaned (docs : list str) : str :=
  concat (map (fun d => clean_comment_line (strip d)) docs).

(** The post-pass can resolve the option: its type is known to the
    caller, or registered as an enumeration or as a nested struct. *)
Definition resolvable (known : str -> bool) (v : ReadOptions.vars)
           (o : Option.t) : Prop :=
  known (Option.type o) = true
  \/ is_Some (ReadOptions.enums v !! Option.type o)
  \/ is_Some (ReadOptions.nested_structs v !! Option.type o).

(** The post-pass cannot: the caller rejects the type and neither
    registry holds it. *)
Definition offending (known : str -> bool) (v : ReadOptions.vars)
           (o : Option.t) : Prop :=
  known (Option.type o) = false
  /\ ReadOptions.enums v !! Option.type o = None
  /\ ReadOptions.nested_structs v !! Option.type o = None.

(** What the post-pass makes of a parsed option [o]: name, type and
    comment stay; an option of a known type carries nothing, any other
    carries the enumeration registered under its type and, when there is
    none, the nested struct registered under it. *)
Definition resolved (known : str -> bool) (v : ReadOptions.vars)
           (o o' : Option.t) : Prop :=
  Option.name o' = Option.name o
  /\ Option.type o' = Option.type o
  /\ Option.comment o' = Option.comment o
  /\ if known (Option.type o)
     then Option.enum o' = None /\ Option.nested_struct o' = None
     else match ReadOptions.enums v !! Option.type o with
          | Some e => Option.enum o' = Some e
                      /\ Option.nested_struct o' = None
          | None =>
              match ReadOptions.nested_structs v !! Option.type o with
              | Some n => Option.enum o' = None
                          /\ Option.nested_struct o' = Some n
              | None => False
              end
          end.

(** One of the two lines that open the declaration. *)
Definition opens_struct (line : str) : bool :=
  eqs (strip line) (L "struct FormatStyle {")
  || eqs (strip line) (L "struct IncludeStyle {").

(** No option parsed so far has an enumeration or a nested struct
    attached: the loop never attaches one. *)
Definition unattached (v : ReadOptions.vars) : Prop :=
  Forall (fun o => Option.enum o = None /\ Option.nested_struct o = None)
         (ReadOptions.options v).

(* ===================================================================== *)
(** * Properties *)
(* ===================================================================== *)

(** ** Strings *)

Lemma is_char_true a c : is_char a c = true <-> a = c.
Proof. unfold is_char. apply Ascii.eqb_eq. Qed.

Lemma is_char_refl a : is_char a a = true.
Proof. apply is_char_true. reflexivity. Qed.

Lemma is_char_false a c : is_char a c = false <-> a <> c.
Proof. unfold is_char. apply Ascii.eqb_neq. Qed.

Lemma eqs_true s t : eqs s t = true <-> s = t.
Proof.
  revert t. induction s as [|a s IH]; intros [|b t]; simpl; split;
    try congruence; try reflexivity.
  - intros H. apply andb_true_iff in H as [H1 H2].
    apply is_char_true in H1. apply IH in H2. congruence.
  - intros H. injection H as -> ->. rewrite is_char_refl. simpl.
    apply IH. reflexivity.
Qed.

Lemma eqs_refl s : eqs s s = true.
Proof. apply eqs_true. reflexivity. Qed.

Lemma startswith_app p s : startswith p (p ++ s) = true.
Proof.
  induction p as [|a p IH]; simpl; [reflexivity|].
  rewrite is_char_refl. exact IH.
Qed.

Lemma startswith_true p s : startswith p s = true <-> exists t, s = p ++ t.
Proof.
  split.
  - revert s. induction p as [|a p IH]; intros s H.
    + exists s. reflexivity.
    + destruct s as [|c s]; simpl in H; [discriminate|].
      apply andb_true_iff in H as [H1 H2]. apply is_char_true in H1.
      destruct (IH _ H2) as [t ->]. exists t. subst. reflexivity.
  - intros [t ->]. apply startswith_app.
Qed.

(** ** [indent] on the empty text *)

(** C9, as amended.  On the empty text [indent] returns the empty text
    when [indent_first_line] is false; when it is true the result is the
    indentation itself, [columns] spaces, which is the empty text only for
    a width that is not positive. *)
Theorem indent_empty_text (columns : Z) (indent_first_line : bool) :
  indent [] columns indent_first_line
  = if indent_first_line then spaces columns else [].
Proof.
  unfold indent. destruct indent_first_line; simpl.
  - apply app_nil_r.
  - reflexivity.
Qed.

(** C9 as written fails: with the default [indent_first_line] the empty
    text comes back as two spaces. *)
Lemma indent_empty_text_indented :
  indent [] 2 true = L "  " /\ indent [] 2 true <> [].
Proof. split; [reflexivity | discriminate]. Qed.

(** ** The block states of [read_options] *)

Import ReadOptions.

(** C5, as amended.  A line that is neither a documentation line nor the
    closing marker raises the format error in the enumeration block, unless
    it is blank; in the nested-struct block it is skipped and nothing
    changes. *)
Theorem other_line_in_block (v : vars) (line : str) :
  startswith (L "///") (strip line) = false ->
  eqs (strip line) (L "};") = false ->
  (state v = InEnum -> eqs (strip line) [] = false ->
   body v line = Raise format_error_enum)
  /\ (state v = InNestedStruct -> body v line = Ok (Continue, v)).
Proof.
  intros Hdoc Hclose. split.
  - intros Hstate Hblank. unfold body.
    rewrite Hstate, Hdoc, Hclose, Hblank. reflexivity.
  - intros Hstate. unfold body.
    rewrite Hstate, Hdoc, Hclose. reflexivity.
Qed.

Lemma other_line_in_block_witness :
  body (set_state InEnum initial) (L "  int x;") = Raise format_error_enum
  /\ body (set_state InNestedStruct initial) (L "  int x;")
     = Ok (Continue, set_state InNestedStruct initial).
Proof.
  split.
  - apply (other_line_in_block (set_state InEnum initial) (L "  int x;"));
      reflexivity.
  - apply (other_line_in_block (set_state InNestedStruct initial)
                               (L "  int x;")); reflexivity.
Defined.

(** C5 as written fails in the nested-struct block: the line [garbage]
    is read in state [InNestedStruct], raises nothing, and the run returns
    its option. *)
Lemma other_line_in_nested_struct_skipped :
  exists v,
    loop initial [L "struct FormatStyle {"; L "/// c"; L "struct N {"] = Ok v
    /\ state v = InNestedStruct
    /\ body v (L "garbage") = Ok (Continue, v)
    /\ raises (read_options
                 [L "struct FormatStyle {"; L "/// c"; L "struct N {";
                  L "garbage"; L "};"; L "/// d"; L "N f;"; L "};"]
                 (fun _ => false))
       = false.
Proof.
  eexists. split; [vm_compute; reflexivity|].
  split; [reflexivity|]. split; vm_compute; reflexivity.
Qed.

(** ** Deprecated fields *)

Lemma line_comment_is_no_block l :
  startswith (L "//") l = true ->
  startswith (L "enum") l = false /\ startswith (L "struct") l = false.
Proof.
  destruct l as [|c l]; simpl; [discriminate|].
  intros H. apply andb_true_iff in H as [H _].
  apply is_char_true in H. subst c. split; reflexivity.
Qed.

Lemma resolve_all_registries known v w opts :
  enums v = enums w -> nested_structs v = nested_structs w ->
  resolve_all known v opts = resolve_all known w opts.
Proof.
  intros He Hn. induction opts as [|o opts IH]; simpl; [reflexivity|].
  unfold resolve. rewrite He, Hn, IH. reflexivity.
Qed.

(** In state [InStruct] the value of [comment] is dead: the next
    documentation line overwrites it before anything reads it. *)
Lemma resume_in_struct_ignores_comment rest :
  forall v c known,
    state v = InStruct ->
    resume (set_comment c v) rest known = resume v rest known.
Proof.
  induction rest as [|line rest IH]; intros v c known Hst.
  - unfold resume, finish. simpl. rewrite Hst. reflexivity.
  - unfold resume. simpl loop. unfold body. simpl state. rewrite Hst.
    destruct (startswith (L "///") (strip line)).
    + reflexivity.
    + destruct (eqs (strip line) (L "};")).
      * simpl. apply resolve_all_registries; reflexivity.
      * simpl. apply (IH v c known Hst).
Qed.

(** C7.  In state [InFieldComment] a plain line comment that ends in [;]
    brings the parser back to [InStruct] with the options and both
    registries as they were, and whatever [comment] holds from then on is
    without effect on the rest of the run. *)
Theorem deprecated_field_skipped (v : vars) (line : str) :
  state v = InFieldComment ->
  startswith (L "///") (strip line) = false ->
  startswith (L "//") (strip line) = true ->
  endswith (L ";") (strip line) = true ->
  exists v',
    body v line = Ok (Continue, v')
    /\ state v' = InStruct
    /\ options v' = options v
    /\ enums v' = enums v
    /\ nested_structs v' = nested_structs v
    /\ forall c rest known,
        resume (set_comment c v') rest known = resume v' rest known.
Proof.
  intros Hst Hdoc Hcomment Hsemi.
  destruct (line_comment_is_no_block _ Hcomment) as [Henum Hstruct].
  exists (set_state InStruct v). split.
  - unfold body. rewrite Hst, Hdoc, Henum, Hstruct, Hcomment, Hsemi.
    reflexivity.
  - repeat (split; [reflexivity|]).
    intros c rest known. apply resume_in_struct_ignores_comment. reflexivity.
Qed.

Lemma deprecated_field_skipped_witness :
  exists v',
    body (set_comment (L "Old." ++ [nl]) (set_state InFieldComment initial))
         (L "  // bool Deprecated;")
    = Ok (Continue, v')
    /\ state v' = InStruct
    /\ options v' = []
    /\ enums v' = ∅
    /\ nested_structs v' = ∅
    /\ forall c rest known,
        resume (set_comment c v') rest known = resume v' rest known.
Proof.
  apply (deprecated_field_skipped
           (set_comment (L "Old." ++ [nl]) (set_state InFieldComment initial))
           (L "  // bool Deprecated;")); reflexivity.
Defined.

(** ** How [read_options] ends *)

Lemma body_raise v line e :
  body v line = Raise e ->
  e = format_error_field \/ e = format_error_enum \/ e = AttributeError.
Proof.
  unfold body. intros H.
  repeat case_match; simplify_eq; auto.
Qed.

Lemma body_break v line v' :
  body v line = Ok (Break, v') ->
  state v = InStruct /\ strip line = L "};" /\ v' = set_state Finished v.
Proof.
  unfold body. intros H.
  repeat case_match; simplify_eq.
  repeat split; try assumption. apply eqs_true. assumption.
Qed.

Lemma body_continue v line v' :
  body v line = Ok (Continue, v') ->
  state v <> Finished -> state v' <> Finished.
Proof.
  unfold body. intros H Hv.
  repeat case_match; simplify_eq; simpl; congruence.
Qed.

Lemma loop_raise header :
  forall v e,
    loop v header = Raise e ->
    e = format_error_field \/ e = format_error_enum \/ e = AttributeError.
Proof.
  induction header as [|line rest IH]; intros v e H; simpl in H.
  - discriminate.
  - destruct (body v line) as [[[] v']|e'] eqn:Hb; simpl in H.
    + eauto.
    + discriminate.
    + injection H as <-. eapply body_raise; eassumption.
Qed.

(** [Finished] is entered in one place only: on the line [};] read in
    state [InStruct]. *)
Lemma loop_finished header :
  forall v v',
    state v <> Finished ->
    loop v header = Ok v' ->
    state v' = Finished ->
    exists before line after u,
      header = before ++ line :: after
      /\ loop v before = Ok u
      /\ state u = InStruct
      /\ strip line = L "};"
      /\ v' = set_state Finished u.
Proof.
  induction header as [|line rest IH]; intros v v' Hv H Hfin; simpl in H.
  - injection H as <-. contradiction.
  - destruct (body v line) as [[[] v1]|e'] eqn:Hb; simpl in H.
    + pose proof (body_continue _ _ _ Hb Hv) as Hv1.
      destruct (IH v1 v' Hv1 H Hfin)
        as (before & l & after & u & -> & Hloop & Hu & Hl & ->).
      exists (line :: before), l, after, u.
      repeat split; try assumption.
      simpl. rewrite Hb. simpl. exact Hloop.
    + injection H as <-.
      destruct (body_break _ _ _ Hb) as (Hs & Hl & ->).
      exists [], line, rest, v. repeat split; assumption.
    + discriminate.
Qed.

Lemma resolve_all_outcome known v opts :
  (exists opts',
      resolve_all known v opts = Ok opts'
      /\ Forall2 (fun o o' => Option.name o' = Option.name o
                              /\ Option.type o' = Option.type o
                              /\ Option.comment o' = Option.comment o)
                 opts opts')
  \/ (exists o, In o opts
                /\ resolve_all known v opts = Raise (unknown_type (Option.type o))).
Proof.
  induction opts as [|o opts IH]; simpl.
  - left. exists []. split; [reflexivity | constructor].
  - destruct (resolve known v o) as [o'|e] eqn:Ho; simpl.
    + assert (Option.name o' = Option.name o
              /\ Option.type o' = Option.type o
              /\ Option.comment o' = Option.comment o) as Hsame.
      { unfold resolve in Ho. repeat case_match; simplify_eq; auto. }
      destruct IH as [(opts' & -> & Hall) | (p & Hin & ->)]; simpl.
      * left. eexists. split; [reflexivity|]. constructor; assumption.
      * right. exists p. split; [right; assumption | reflexivity].
    + right. exists o. split; [left; reflexivity|].
      unfold resolve in Ho. repeat case_match; simplify_eq. reflexivity.
Qed.

(** C3, as amended.  A run ends in one of three ways: a line raises a
    format error and the scan stops there; or the scan reaches [Finished],
    which only the line [};] read in state [InStruct] brings about, and the
    call returns the parsed options unless the type of one of them cannot
    be resolved; or the lines run out in another state and the call raises
    the incomplete-input error.  A header without a line [};] therefore
    always raises. *)
Theorem read_options_outcomes (header : list str) (known : str -> bool) :
  ((exists e,
       loop initial header = Raise e
       /\ (e = format_error_field \/ e = format_error_enum
           \/ e = AttributeError)
       /\ read_options header known = Raise e)
   \/ (exists v,
         loop initial header = Ok v
         /\ state v = Finished
         /\ (exists before line after u,
               header = before ++ line :: after
               /\ loop initial before = Ok u
               /\ state u = InStruct
               /\ strip line = L "};"
               /\ v = set_state Finished u)
         /\ ((exists opts,
                 read_options header known = Ok opts
                 /\ Forall2 (fun o o' => Option.name o' = Option.name o
                                         /\ Option.type o' = Option.type o
                                         /\ Option.comment o' = Option.comment o)
                            (options v) opts)
             \/ (exists o,
                    In o (options v)
                    /\ read_options header known
                       = Raise (unknown_type (Option.type o)))))
   \/ (exists v,
         loop initial header = Ok v
         /\ state v <> Finished
         /\ read_options header known = Raise not_finished))
  /\ (existsb (fun line => eqs (strip line) (L "};")) header = false ->
      raises (read_options header known) = true).
Proof.
  assert (state initial <> Finished) as Hinit by discriminate.
  split.
  - unfold read_options.
    destruct (loop initial header) as [v|e] eqn:Hloop; simpl.
    + destruct (state v) eqn:Hst;
        try (right; right; exists v; repeat split;
             [congruence | unfold finish; rewrite Hst; reflexivity]).
      right; left. exists v.
      split; [reflexivity|]. split; [exact Hst|]. split.
      * exact (loop_finished _ _ _ Hinit Hloop Hst).
      * unfold finish. rewrite Hst. apply resolve_all_outcome.
    + left. exists e. split; [reflexivity|]. split; [|reflexivity].
      eapply loop_raise; eassumption.
  - intros Hno. unfold read_options.
    destruct (loop initial header) as [v|e] eqn:Hloop; simpl; [|reflexivity].
    destruct (state v) eqn:Hst; unfold finish; rewrite Hst; try reflexivity.
    destruct (loop_finished _ _ _ Hinit Hloop Hst)
      as (before & line & after & u & -> & _ & _ & Hl & _).
    rewrite existsb_app in Hno. simpl in Hno.
    rewrite Hl, eqs_refl in Hno. simpl in Hno.
    rewrite orb_true_r in Hno. discriminate.
Qed.

Lemma read_options_outcomes_witness :
  raises (read_options [L "struct FormatStyle {"; L "/// c"; L "int x;"]
                       (fun _ => true)) = true.
Proof.
  apply (read_options_outcomes
           [L "struct FormatStyle {"; L "/// c"; L "int x;"] (fun _ => true)).
  reflexivity.
Defined.

(** C3 as written fails: a run can also end on a format error, which is
    neither a return nor the incomplete-input error. *)
Lemma read_options_format_error :
  read_options [L "struct FormatStyle {"; L "/// c"; L "x"] (fun _ => true)
  = Raise format_error_field
  /\ format_error_field <> not_finished.
Proof. split; [reflexivity | discriminate]. Qed.

(** ** The post-pass *)

(** No option carries anything while the lines are read. *)
Lemma body_unattached v line f v' :
  unattached v -> body v line = Ok (f, v') -> unattached v'.
Proof.
  unfold unattached, body. intros Hinv H.
  repeat case_match; simplify_eq; try exact Hinv.
  cbn. apply Forall_app. split; [exact Hinv|].
  constructor; [split; reflexivity | constructor].
Qed.

Lemma loop_unattached header :
  forall v v', unattached v -> loop v header = Ok v' -> unattached v'.
Proof.
  induction header as [|line rest IH]; intros v v' Hinv H; simpl in H.
  - injection H as <-. exact Hinv.
  - destruct (body v line) as [[[] v1]|e] eqn:Hb; simpl in H.
    + apply (IH _ _ (body_unattached _ _ _ _ Hinv Hb) H).
    + injection H as <-. apply (body_unattached _ _ _ _ Hinv Hb).
    + discriminate.
Qed.

Lemma resolve_all_attached known v opts opts' :
  resolve_all known v opts = Ok opts' ->
  Forall2 (fun o o' =>
             if known (Option.type o) then o' = o
             else match enums v !! Option.type o with
                  | Some e => o' = Option.set_enum o e
                  | None =>
                      match nested_structs v !! Option.type o with
                      | Some n => o' = Option.set_nested_struct o n
                      | None => False
                      end
                  end)
          opts opts'.
Proof.
  revert opts'. induction opts as [|o opts IH]; intros opts' H; simpl in H.
  - injection H as <-. constructor.
  - destruct (resolve known v o) as [o'|e] eqn:Ho; simpl in H; [|discriminate].
    destruct (resolve_all known v opts) as [rest|e]; simpl in H;
      [|discriminate].
    injection H as <-. constructor; [|apply IH; reflexivity].
    unfold resolve in Ho.
    destruct (known (Option.type o)); simpl in Ho; [congruence|].
    destruct (enums v !! Option.type o); [congruence|].
    destruct (nested_structs v !! Option.type o); [congruence|discriminate].
Qed.

Lemma resolve_all_first_unknown known v before o after :
  (forall p, In p before ->
             known (Option.type p) = true
             \/ is_Some (enums v !! Option.type p)
             \/ is_Some (nested_structs v !! Option.type p)) ->
  known (Option.type o) = false ->
  enums v !! Option.type o = None ->
  nested_structs v !! Option.type o = None ->
  resolve_all known v (before ++ o :: after)
  = Raise (unknown_type (Option.type o)).
Proof.
  intros Hbefore Hk He Hn.
  induction before as [|p before IH]; simpl.
  - unfold resolve. rewrite Hk, He, Hn. reflexivity.
  - rewrite IH by (intros q Hq; apply Hbefore; right; exact Hq).
    unfold resolve.
    destruct (Hbefore p (or_introl eq_refl)) as [H|[[e H]|[n H]]].
    + rewrite H. reflexivity.
    + rewrite H. destruct (known (Option.type p)); reflexivity.
    + rewrite H. destruct (known (Option.type p)); [reflexivity|].
      simpl. destruct (enums v !! Option.type p); reflexivity.
Qed.

Lemma resolve_all_returns known v opts :
  (forall p, In p opts ->
             known (Option.type p) = true
             \/ is_Some (enums v !! Option.type p)
             \/ is_Some (nested_structs v !! Option.type p)) ->
  raises (resolve_all known v opts) = false.
Proof.
  induction opts as [|p opts IH]; intros Hall; simpl; [reflexivity|].
  specialize (IH (fun q Hq => Hall q (or_intror Hq))).
  destruct (resolve_all known v opts) as [rest|e]; [|discriminate].
  unfold resolve.
  destruct (Hall p (or_introl eq_refl)) as [H|[[e H]|[n H]]].
  - rewrite H. reflexivity.
  - rewrite H. destruct (known (Option.type p)); reflexivity.
  - rewrite H. destruct (known (Option.type p)); [reflexivity|].
    simpl. destruct (enums v !! Option.type p); reflexivity.
Qed.

Lemma resolve_all_fields known v opts opts' :
  Forall (fun o => Option.enum o = None /\ Option.nested_struct o = None)
         opts ->
  resolve_all known v opts = Ok opts' ->
  Forall2 (resolved known v) opts opts'.
Proof.
  intros Hnone H. apply resolve_all_attached in H.
  induction H as [|o o' os os' Ho _ IH]; [constructor|].
  apply Forall_cons in Hnone as [[He Hn] Hnone].
  constructor; [|apply (IH Hnone)].
  unfold resolved. destruct (known (Option.type o)).
  - subst o'. auto.
  - destruct (enums v !! Option.type o) as [e|].
    + subst o'. cbn. auto.
    + destruct (nested_structs v !! Option.type o) as [n|]; [|contradiction].
      subst o'. cbn. auto.
Qed.

Lemma resolvable_or_offending known v o :
  resolvable known v o \/ offending known v o.
Proof.
  unfold resolvable, offending.
  destruct (known (Option.type o)); [left; left; reflexivity|].
  destruct (enums v !! Option.type o); [left; right; left; eexists; eauto|].
  destruct (nested_structs v !! Option.type o);
    [left; right; right; eexists; eauto|].
  right. auto.
Qed.

Lemma offending_not_resolvable known v o :
  offending known v o -> resolvable known v o -> False.
Proof.
  intros (Hk & He & Hn) [H|[[e H]|[n H]]]; congruence.
Qed.

(** Where an option offends, there is a first one that does. *)
Lemma first_offending known v opts o :
  In o opts -> offending known v o ->
  exists before first after,
    opts = before ++ first :: after
    /\ (forall p, In p before -> resolvable known v p)
    /\ offending known v first.
Proof.
  intros Hin Ho. induction opts as [|p opts IH]; [destruct Hin|].
  destruct (resolvable_or_offending known v p) as [Hp|Hp].
  - destruct Hin as [->|Hin];
      [destruct (offending_not_resolvable _ _ _ Ho Hp)|].
    destruct (IH Hin) as (before & first & after & -> & Hbefore & Hfirst).
    exists (p :: before), first, after. split; [reflexivity|].
    split; [|exact Hfirst].
    intros q [<-|Hq]; [exact Hp | apply (Hbefore q Hq)].
  - exists [], p, opts. split; [reflexivity|]. split; [|exact Hp].
    intros q [].
Qed.

(** C4, as amended.  Once the scan has reached [Finished] with the
    options and the two registries of [v]: in what the call returns every
    option keeps its name, type and comment, an option whose type the
    caller's predicate rejects carries the enumeration registered under
    that type, or else the nested struct registered under it, and an
    option of a known type carries nothing; when some option is known to
    neither the predicate nor the registries the call raises the error
    that names the type of the first such option, in the order of the
    declaration; and when there is no such option the call returns. *)
Theorem unresolved_type_named
        (header : list str) (known : str -> bool) (v : vars) :
  loop initial header = Ok v ->
  state v = Finished ->
  (forall opts,
      read_options header known = Ok opts ->
      Forall2 (resolved known v) (options v) opts)
  /\ (forall o,
         In o (options v) -> offending known v o ->
         exists before first after,
           options v = before ++ first :: after
           /\ (forall p, In p before -> resolvable known v p)
           /\ offending known v first
           /\ read_options header known
              = Raise (Exception (L "Unknown type: " ++ Option.type first)))
  /\ ((forall p, In p (options v) -> resolvable known v p) ->
      exists opts, read_options header known = Ok opts).
Proof.
  intros Hloop Hst.
  assert (read_options header known = resolve_all known v (options v)) as ->.
  { unfold read_options. rewrite Hloop. simpl. unfold finish.
    rewrite Hst. reflexivity. }
  split; [|split].
  - intros opts. apply resolve_all_fields.
    apply (loop_unattached header initial v); [constructor | exact Hloop].
  - intros o Hin Ho.
    destruct (first_offending known v _ o Hin Ho)
      as (before & first & after & Heq & Hbefore & Hfirst).
    exists before, first, after. split; [exact Heq|].
    split; [exact Hbefore|]. split; [exact Hfirst|].
    rewrite Heq. destruct Hfirst as (Hk & He & Hn).
    apply (resolve_all_first_unknown known v before first after
             Hbefore Hk He Hn).
  - intros Hall. pose proof (resolve_all_returns known v _ Hall) as H.
    destruct (resolve_all known v (options v)) as [opts|e];
      [exists opts; reflexivity | discriminate].
Qed.

Lemma unresolved_type_named_witness :
  exists before first after,
    [Option.__init__ (L "X") (L "int") (L "a" ++ [nl]);
     Option.__init__ (L "Field") (L "Z") (L "f" ++ [nl])]
    = before ++ first :: after
    /\ (forall p, In p before ->
                  resolvable
                    (fun type => eqs type (L "int"))
                    {| state := Finished;
                       options :=
                         [Option.__init__ (L "X") (L "int") (L "a" ++ [nl]);
                          Option.__init__ (L "Field") (L "Z")
                                          (L "f" ++ [nl])];
                       enums := ∅; nested_structs := ∅;
                       comment := L "f" ++ [nl];
                       enum := None; nested_struct := None |} p)
    /\ offending
         (fun type => eqs type (L "int"))
         {| state := Finished;
            options :=
              [Option.__init__ (L "X") (L "int") (L "a" ++ [nl]);
               Option.__init__ (L "Field") (L "Z") (L "f" ++ [nl])];
            enums := ∅; nested_structs := ∅; comment := L "f" ++ [nl];
            enum := None; nested_struct := None |} first
    /\ read_options
         [L "struct FormatStyle {"; L "/// a"; L "int X;"; L "/// f";
          L "Z Field;"; L "};"]
         (fun type => eqs type (L "int"))
       = Raise (Exception (L "Unknown type: " ++ Option.type first)).
Proof.
  refine (proj1 (proj2 (unresolved_type_named
            [L "struct FormatStyle {"; L "/// a"; L "int X;"; L "/// f";
             L "Z Field;"; L "};"]
            (fun type => eqs type (L "int"))
            {| state := Finished;
               options :=
                 [Option.__init__ (L "X") (L "int") (L "a" ++ [nl]);
                  Option.__init__ (L "Field") (L "Z") (L "f" ++ [nl])];
               enums := ∅; nested_structs := ∅; comment := L "f" ++ [nl];
               enum := None; nested_struct := None |}
            _ _))
            (Option.__init__ (L "Field") (L "Z") (L "f" ++ [nl])) _ _).
  - vm_compute. reflexivity.
  - reflexivity.
  - right. left. reflexivity.
  - split; [|split]; reflexivity.
Defined.

(** C4 as written fails for an option behind another that cannot be
    resolved either: the error names the type of the first one only. *)
Lemma unresolved_type_names_first_only :
  read_options
    [L "struct FormatStyle {"; L "/// a"; L "Z1 A;"; L "/// b"; L "Z2 B;";
     L "};"]
    (fun _ => false)
  = Raise (Exception (L "Unknown type: Z1"))
  /\ loop initial
          [L "struct FormatStyle {"; L "/// a"; L "Z1 A;"; L "/// b";
           L "Z2 B;"; L "};"]
     = Ok {| state := Finished;
             options :=
               [Option.__init__ (L "A") (L "Z1") (L "a" ++ [nl]);
                Option.__init__ (L "B") (L "Z2") (L "b" ++ [nl])];
             enums := ∅; nested_structs := ∅; comment := L "b" ++ [nl];
             enum := None; nested_struct := None |}
  /\ read_options
       [L "struct FormatStyle {"; L "/// a"; L "Z1 A;"; L "/// b";
        L "Z2 B;"; L "};"]
       (fun _ => false)
     <> Raise (Exception (L "Unknown type: Z2")).
Proof.
  split; [vm_compute; reflexivity|].
  split; [vm_compute; reflexivity|].
  vm_compute. discriminate.
Qed.

(** ** The matcher *)

Lemma orelse_some {A} (x y : option A) r :
  orelse x y = Some r -> x = Some r \/ (x = None /\ y = Some r).
Proof. destruct x; simpl; intros H; [left|right]; auto. Qed.

Lemma star_greedy_inv {A} p s g (k : cont) (res : A) :
  star_greedy p s g k = Some res ->
  exists pre s', s = pre ++ s' /\ k s' g = Some res.
Proof.
  induction s as [|c s IH]; simpl; intros H.
  - exists [], []. auto.
  - destruct (p c).
    + apply orelse_some in H as [H|[_ H]].
      * destruct (IH H) as (pre & s' & -> & Hk). exists (c :: pre), s'. auto.
      * exists [], (c :: s). auto.
    + exists [], (c :: s). auto.
Qed.

Lemma star_lazy_inv {A} p s g (k : cont) (res : A) :
  star_lazy p s g k = Some res ->
  exists pre s', s = pre ++ s' /\ k s' g = Some res.
Proof.
  induction s as [|c s IH]; simpl; intros H.
  - apply orelse_some in H as [H|[_ H]]; [|discriminate].
    exists [], []. auto.
  - apply orelse_some in H as [H|[_ H]].
    + exists [], (c :: s). auto.
    + destruct (p c); [|discriminate].
      destruct (IH H) as (pre & s' & -> & Hk). exists (c :: pre), s'. auto.
Qed.

(** Whatever a pattern matches is a prefix of the text, and it is not
    empty unless the pattern is [nullable]. *)
Lemma run_inv {A} r :
  forall s g (k : cont) (res : A),
    run r s g k = Some res ->
    exists pre s' g',
      s = pre ++ s' /\ (nullable r = false -> pre <> []) /\ k s' g' = Some res.
Proof.
  induction r as [|a|p|greedy p|r1 IH1 r2 IH2|r IH|n r IH|];
    intros s g k res H; simpl in H.
  - exists [], s, g. auto.
  - destruct s as [|c s]; [discriminate|].
    destruct (is_char a c); [|discriminate].
    exists [c], s, g. repeat split; auto; discriminate.
  - destruct s as [|c s]; [discriminate|].
    destruct (p c); [|discriminate].
    exists [c], s, g. repeat split; auto; discriminate.
  - destruct greedy.
    + destruct (star_greedy_inv _ _ _ _ _ H) as (pre & s' & -> & Hk).
      exists pre, s', g. auto.
    + destruct (star_lazy_inv _ _ _ _ _ H) as (pre & s' & -> & Hk).
      exists pre, s', g. auto.
  - destruct (IH1 _ _ _ _ H) as (pre1 & s1 & g1 & -> & Hn1 & H1).
    destruct (IH2 _ _ _ _ H1) as (pre2 & s2 & g2 & -> & Hn2 & H2).
    exists (pre1 ++ pre2), s2, g2. rewrite app_assoc.
    repeat split; auto.
    simpl. intros Hn Happ. apply app_eq_nil in Happ as [-> ->].
    apply andb_false_iff in Hn as [Hn|Hn];
      [apply (Hn1 Hn) | apply (Hn2 Hn)]; reflexivity.
  - apply orelse_some in H as [H|[_ H]].
    + destruct (IH _ _ _ _ H) as (pre & s' & g' & -> & _ & Hk).
      exists pre, s', g'. auto.
    + exists [], s, g. auto.
  - destruct (IH _ _ _ _ H) as (pre & s' & g' & -> & Hn & Hk).
    eexists pre, s', _. eauto.
  - destruct (eqs s [] || eqs s [nl]); [|discriminate].
    exists [], s, g. auto.
Qed.

Lemma match_here_inv r advance s s' g :
  match_here r advance s = Some (s', g) ->
  exists pre, s = pre ++ s' /\ (nullable r = false -> pre <> []).
Proof.
  unfold match_here. intros H.
  destruct (run_inv _ _ _ _ _ H) as (pre & s1 & g1 & -> & Hn & Hk).
  destruct (advance && _); [discriminate|].
  injection Hk as -> ->. exists pre. auto.
Qed.

(** ** [re.sub] with a pattern that matches no empty text *)

Lemma match_here_nil r advance :
  nullable r = false -> match_here r advance [] = None.
Proof.
  intros Hn. destruct (match_here r advance []) as [[s' g]|] eqn:H;
    [|reflexivity].
  destruct (match_here_inv _ _ _ _ _ H) as (pre & Hs & Hpre).
  symmetry in Hs. apply app_eq_nil in Hs as [-> _].
  exfalso. apply (Hpre Hn). reflexivity.
Qed.

Lemma sub_from_nil r t :
  nullable r = false -> sub_from r t 0 [] = [].
Proof.
  intros Hn. simpl. rewrite (match_here_nil _ _ Hn). reflexivity.
Qed.

Lemma sub_from_inside r t pre s' :
  nullable r = false ->
  sub_from r t (length pre) (pre ++ s') = sub_from r t 0 s'.
Proof.
  intros _. induction pre as [|a pre IH]; [reflexivity|].
  change (sub_from r t (length (a :: pre)) ((a :: pre) ++ s'))
    with (sub_from r t (length pre) (pre ++ s')).
  exact IH.
Qed.

(** The equation [re.sub] obeys for such a pattern: copy a character and
    go on, or emit the replacement and go on behind the match. *)
Lemma sub_from_unfold r t s :
  nullable r = false ->
  sub_from r t 0 s
  = match match_here r false s with
    | None =>
        match s with
        | [] => []
        | c :: s' => c :: sub_from r t 0 s'
        end
    | Some (s', g) => expand t g ++ sub_from r t 0 s'
    end.
Proof.
  intros Hn.
  destruct (match_here r false s) as [[s' g]|] eqn:H.
  - destruct (match_here_inv _ _ _ _ _ H) as (pre & -> & Hpre).
    destruct pre as [|a pre]; [exfalso; apply (Hpre Hn); reflexivity|].
    change ((a :: pre) ++ s') with (a :: (pre ++ s')) in *.
    cbn [sub_from]. rewrite H. cbn [length].
    replace (S (length (pre ++ s')) - length s') with (S (length pre))
      by (rewrite length_app; lia).
    rewrite (sub_from_inside _ _ _ _ Hn). reflexivity.
  - destruct s; cbn [sub_from]; rewrite H; reflexivity.
Qed.

(** ** The configuration name of an enumeration value *)

Lemma after_last_underscore_none s :
  existsb (is_char "_") s = false -> after_last_underscore s = s.
Proof. destruct s; simpl; [reflexivity|]. intros ->. reflexivity. Qed.

Lemma after_last_underscore_clean s :
  existsb (is_char "_") (after_last_underscore s) = false.
Proof.
  induction s as [|c s IH]; [reflexivity|].
  cbn [after_last_underscore].
  destruct (existsb (is_char "_") (c :: s)) eqn:E; [exact IH | exact E].
Qed.

Lemma prefix_none s g :
  existsb (is_char "_") s = false ->
  star_greedy dot s g
    (fun s' g' =>
       run (Seq (Chr "_") Eps) s' g' (fun s'' g'' => Some (s'', g'')))
  = None.
Proof.
  induction s as [|c s IH]; [reflexivity|].
  intros H. cbn [existsb] in H. apply orb_false_iff in H as [Hc Hs].
  cbn [star_greedy]. rewrite (IH Hs). simpl. rewrite Hc.
  destruct (dot c); reflexivity.
Qed.

Lemma prefix_last s g :
  existsb (is_char nl) s = false ->
  star_greedy dot s g
    (fun s' g' =>
       run (Seq (Chr "_") Eps) s' g' (fun s'' g'' => Some (s'', g'')))
  = if existsb (is_char "_") s then Some (after_last_underscore s, g)
    else None.
Proof.
  induction s as [|c s IH]; [reflexivity|].
  intros H. simpl in H. apply orb_false_iff in H as [Hc Hs].
  cbn [star_greedy after_last_underscore]. unfold dot at 1. rewrite Hc.
  cbn [negb]. rewrite (IH Hs).
  destruct (existsb (is_char "_") s) eqn:Hu.
  - simpl. rewrite Hu, orb_true_r. reflexivity.
  - simpl. rewrite Hu, orb_false_r.
    destruct (is_char "_" c); [|reflexivity].
    rewrite (after_last_underscore_none _ Hu). reflexivity.
Qed.

Lemma prefix_sub_clean s :
  existsb (is_char "_") s = false ->
  re_sub EnumValue.prefix_pattern [] s = s.
Proof.
  unfold re_sub. induction s as [|c s IH]; intros H.
  - reflexivity.
  - rewrite sub_from_unfold by reflexivity.
    assert (match_here EnumValue.prefix_pattern false (c :: s) = None) as ->.
    { apply (prefix_none (c :: s) no_groups H). }
    simpl in H. apply orb_false_iff in H as [_ H].
    rewrite (IH H). reflexivity.
Qed.

Lemma prefix_sub s :
  existsb (is_char nl) s = false ->
  re_sub EnumValue.prefix_pattern [] s = after_last_underscore s.
Proof.
  intros Hnl. destruct (existsb (is_char "_") s) eqn:Hu.
  - unfold re_sub. rewrite sub_from_unfold by reflexivity.
    assert (match_here EnumValue.prefix_pattern false s
            = Some (after_last_underscore s, no_groups)) as ->.
    { pose proof (prefix_last s no_groups Hnl) as H. rewrite Hu in H.
      exact H. }
    simpl expand. simpl app.
    apply (prefix_sub_clean _ (after_last_underscore_clean s)).
  - rewrite (after_last_underscore_none _ Hu). apply prefix_sub_clean, Hu.
Qed.

Lemma single_line_sub s t :
  (forall x, In x t -> In x s) ->
  single_line s = true -> single_line t = true.
Proof.
  unfold single_line. intros Hsub H.
  apply negb_true_iff in H. apply negb_true_iff.
  destruct (existsb (is_char nl) t) eqn:E; [|reflexivity].
  apply existsb_exists in E as (x & Hx & Hnl).
  rewrite <- H. symmetry. apply existsb_exists. exists x. auto.
Qed.

Lemma lstrip_sub s x : In x (lstrip s) -> In x s.
Proof.
  induction s as [|c s IH]; simpl; [auto|].
  destruct (isspace c); [right; auto | auto].
Qed.

Lemma strip_sub s x : In x (strip s) -> In x s.
Proof.
  unfold strip. intros H. apply in_rev in H. apply lstrip_sub in H.
  apply in_rev in H. apply lstrip_sub in H. exact H.
Qed.

Lemma single_line_member c line :
  single_line (strip line) = true ->
  single_line (remove_char c (strip line)) = true.
Proof.
  apply single_line_sub. intros x H. unfold remove_char in H.
  apply filter_In in H as [H _]. exact H.
Qed.

(** One line of the header keeps the names single lines. *)
Lemma body_names v line f v' :
  names_single_line v ->
  single_line (strip line) = true ->
  body v line = Ok (f, v') ->
  names_single_line v'.
Proof.
  intros Hinv Hline H. unfold body in H.
  repeat case_match; simplify_eq; try exact Hinv;
    destruct Hinv as (Ho & He & Hm).
  - split; [exact Ho|]. split; [|exact Hm].
    intros e' [= <-]. constructor.
  - split; [|split; [exact He | exact Hm]].
    cbn. apply Forall_app. split; [exact Ho|]. constructor; [reflexivity|].
    constructor.
  - split; [exact Ho|]. split; [exact He|].
    cbn. apply map_Forall_insert_2; [|exact Hm]. apply He. assumption.
  - split; [exact Ho|]. split; [|exact Hm].
    intros e' [= <-]. cbn. apply Forall_app. split; [apply He; assumption|].
    constructor; [|constructor]. apply single_line_member, Hline.
Qed.

Lemma loop_names header :
  forall v v',
    names_single_line v ->
    forallb (fun line => single_line (strip line)) header = true ->
    loop v header = Ok v' ->
    names_single_line v'.
Proof.
  induction header as [|line rest IH]; intros v v' Hinv Hlines H;
    simpl in H.
  - injection H as <-. exact Hinv.
  - cbn [forallb] in Hlines. apply andb_true_iff in Hlines as [Hline Hrest].
    destruct (body v line) as [[[] v1]|e] eqn:Hb; simpl in H.
    + apply (IH v1 v' (body_names _ _ _ _ Hinv Hline Hb) Hrest H).
    + injection H as <-. apply (body_names _ _ _ _ Hinv Hline Hb).
    + discriminate.
Qed.

Lemma initial_names : names_single_line initial.
Proof.
  split; [constructor|]. split; [discriminate|]. apply map_Forall_empty.
Qed.

(** What [read_options] returns holds enumeration values with single-line
    names only, when the lines it read were lines, with or without white
    space and line breaks at their ends. *)
Lemma read_options_names header known opts o e value :
  forallb (fun line => single_line (strip line)) header = true ->
  read_options header known = Ok opts ->
  In o opts -> Option.enum o = Some e -> In value (Enum.values e) ->
  single_line (EnumValue.name value) = true.
Proof.
  intros Hlines H Ho He Hvalue. unfold read_options in H.
  destruct (loop initial header) as [v|] eqn:Hloop; [|discriminate].
  simpl in H. unfold finish in H.
  destruct (state v); try discriminate.
  destruct (loop_names _ _ _ initial_names Hlines Hloop) as (Hnone & _ & Hm).
  apply resolve_all_attached in H.
  assert (Forall (fun x => single_line (EnumValue.name x) = true)
                 (Enum.values e)) as Hall.
  { clear Hvalue. revert Hnone Ho. induction H as [|p p' ps ps' Hp _ IH];
      intros Hnone Ho; [destruct Ho|].
    apply Forall_cons in Hnone as [Hp0 Hnone].
    destruct Ho as [<-|Ho]; [|apply (IH Hnone Ho)].
    destruct (known (Option.type p)).
    - subst p'. congruence.
    - destruct (enums v !! Option.type p) as [e0|] eqn:Hl.
      + subst p'. cbn in He. injection He as <-. apply (Hm _ _ Hl).
      + destruct (nested_structs v !! Option.type p); [|contradiction].
        subst p'. cbn in He. congruence. }
  rewrite Forall_forall in Hall. apply Hall. apply list_elem_of_In, Hvalue.
Qed.

(** C8, as amended.  An enumeration value whose name holds no line break
    renders as a bullet that shows, in parentheses, what follows the last
    underscore of the name, and the whole name when it has no underscore.
    Every enumeration value that [read_options] attaches to an option has
    such a name when every line of the header, once stripped, holds no
    line break, as the lines of a file do with or without the line break
    at their end. *)
Theorem enum_value_configuration_name :
  (forall name comment,
      single_line name = true ->
      EnumValue.__str__ (EnumValue.__init__ name comment)
      = L "* ``" ++ name ++ L "`` (in configuration: ``"
          ++ after_last_underscore name ++ L "``)" ++ [nl]
          ++ doxygen2rst (indent comment 2 true))
  /\ (forall header known opts o e value,
         forallb (fun line => single_line (strip line)) header = true ->
         read_options header known = Ok opts ->
         In o opts -> Option.enum o = Some e -> In value (Enum.values e) ->
         EnumValue.__str__ value
         = L "* ``" ++ EnumValue.name value ++ L "`` (in configuration: ``"
             ++ after_last_underscore (EnumValue.name value) ++ L "``)" ++ [nl]
             ++ doxygen2rst (indent (EnumValue.comment value) 2 true)).
Proof.
  assert (forall value,
             single_line (EnumValue.name value) = true ->
             EnumValue.__str__ value
             = L "* ``" ++ EnumValue.name value
                 ++ L "`` (in configuration: ``"
                 ++ after_last_underscore (EnumValue.name value)
                 ++ L "``)" ++ [nl]
                 ++ doxygen2rst (indent (EnumValue.comment value) 2 true))
    as Hrender.
  { intros value Hname. unfold EnumValue.__str__.
    rewrite prefix_sub; [reflexivity|].
    unfold single_line in Hname. apply negb_true_iff, Hname. }
  split.
  - intros name comment Hname.
    apply (Hrender (EnumValue.__init__ name comment) Hname).
  - intros header known opts o e value Hlines Hrun Ho He Hvalue.
    apply Hrender.
    apply (read_options_names _ _ _ _ _ _ Hlines Hrun Ho He Hvalue).
Qed.

Lemma enum_value_configuration_name_witness :
  EnumValue.__str__ (EnumValue.__init__ (L "AA_One") (L "one"))
  = L "* ``AA_One`` (in configuration: ``One``)" ++ [nl] ++ L "  one"
  /\ EnumValue.__str__ (EnumValue.__init__ (L "AA_One") (L "one" ++ [nl]))
     = L "* ``AA_One`` (in configuration: ``One``)" ++ [nl] ++ L "  one"
         ++ [nl].
Proof.
  split.
  - apply (proj1 enum_value_configuration_name (L "AA_One") (L "one")).
    reflexivity.
  - apply (proj2 enum_value_configuration_name
             [L "struct FormatStyle {" ++ [nl]; L "  /// e" ++ [nl];
              L "  enum A {" ++ [nl]; L "    /// one" ++ [nl];
              L "    AA_One," ++ [nl]; L "  };" ++ [nl]; L "  /// f" ++ [nl];
              L "  A Field;" ++ [nl]; L "};" ++ [nl]]
             (fun _ => false)
             [Option.set_enum
                (Option.__init__ (L "Field") (L "A") (L "f" ++ [nl]))
                {| Enum.name := L "A"; Enum.comment := L "e";
                   Enum.values :=
                     [EnumValue.__init__ (L "AA_One") (L "one" ++ [nl])] |}]
             (Option.set_enum
                (Option.__init__ (L "Field") (L "A") (L "f" ++ [nl]))
                {| Enum.name := L "A"; Enum.comment := L "e";
                   Enum.values :=
                     [EnumValue.__init__ (L "AA_One") (L "one" ++ [nl])] |})
             {| Enum.name := L "A"; Enum.comment := L "e";
                Enum.values :=
                  [EnumValue.__init__ (L "AA_One") (L "one" ++ [nl])] |}
             (EnumValue.__init__ (L "AA_One") (L "one" ++ [nl]))).
    + reflexivity.
    + vm_compute. reflexivity.
    + left. reflexivity.
    + reflexivity.
    + left. reflexivity.
Defined.

(** C8 as written fails for a name that holds a line break: the pattern
    works line by line, so every line loses what stands before its own
    last underscore. *)
Lemma enum_value_configuration_name_multiline :
  EnumValue.__str__
    (EnumValue.__init__ (L "A_B" ++ [nl] ++ L "C_D") (L "one"))
  = L "* ``A_B" ++ [nl] ++ L "C_D`` (in configuration: ``B" ++ [nl]
      ++ L "D``)" ++ [nl] ++ L "  one"
  /\ after_last_underscore (L "A_B" ++ [nl] ++ L "C_D") = L "D".
Proof. split; vm_compute; reflexivity. Qed.

(** ** [doxygen2rst] applied twice *)

Lemma run_Lit {A} p :
  forall s g (k : cont (A := A)),
    run (Lit p) s g k
    = if startswith p s then k (skipn (length p) s) g else None.
Proof.
  induction p as [|a p IH]; intros s g k; [reflexivity|].
  destruct s as [|c s]; [reflexivity|].
  cbn [Lit run startswith length skipn].
  destruct (is_char a c); [apply IH | reflexivity].
Qed.

Lemma find_none_cons p c s :
  find p (c :: s) = None -> startswith p (c :: s) = false /\ find p s = None.
Proof.
  cbn [find]. destruct (startswith p (c :: s)); [discriminate|].
  destruct (find p s); [discriminate|]. auto.
Qed.

(** A pattern that opens with a literal finds nothing in a text that does
    not hold the literal. *)
Lemma sub_without_literal p r t s :
  p <> [] ->
  find p s = None ->
  re_sub (Seq (Lit p) r) t s = s.
Proof.
  intros Hp. assert (nullable (Seq (Lit p) r) = false) as Hn.
  { destruct p; [contradiction | reflexivity]. }
  unfold re_sub. induction s as [|c s IH]; intros H.
  - apply sub_from_nil, Hn.
  - destruct (find_none_cons _ _ _ H) as [Hhere Hrest].
    rewrite sub_from_unfold by exact Hn.
    unfold match_here. cbn [run]. rewrite run_Lit, Hhere.
    rewrite (IH Hrest). reflexivity.
Qed.

Lemma sub_without_first_char a r t s :
  existsb (is_char a) s = false ->
  re_sub (Seq (Chr a) r) t s = s.
Proof.
  unfold re_sub. induction s as [|c s IH]; intros H.
  - apply sub_from_nil. reflexivity.
  - cbn [existsb] in H. apply orb_false_iff in H as [Hc Hs].
    rewrite sub_from_unfold by reflexivity.
    unfold match_here. cbn [run]. rewrite Hc.
    rewrite (IH Hs). reflexivity.
Qed.

(** A text without backslash and without [<tt>] is left as it is. *)
Lemma doxygen2rst_fixed y :
  existsb (is_char bslash) y = false ->
  contains (L "<tt>") y = false ->
  doxygen2rst y = y.
Proof.
  intros Hb Ht. unfold doxygen2rst.
  assert (re_sub tt_pattern code_span y = y) as ->.
  { apply (sub_without_literal (L "<tt>")); [discriminate|].
    unfold contains in Ht. destruct (find (L "<tt>") y);
      [discriminate | reflexivity]. }
  assert (re_sub c_pattern code_span y = y) as ->.
  { apply (sub_without_first_char bslash), Hb. }
  apply (sub_without_first_char bslash), Hb.
Qed.

(** C2, as amended.  [doxygen2rst] applied twice equals [doxygen2rst]
    applied once on every text whose conversion holds no backslash and no
    [<tt>] any more. *)
Theorem doxygen2rst_twice (x : str) :
  existsb (is_char bslash) (doxygen2rst x) = false ->
  contains (L "<tt>") (doxygen2rst x) = false ->
  doxygen2rst (doxygen2rst x) = doxygen2rst x.
Proof. apply doxygen2rst_fixed. Qed.

Lemma doxygen2rst_twice_witness :
  doxygen2rst (L "\c Foo and <tt> bar </tt>") = L "``Foo`` and ``bar``"
  /\ doxygen2rst (doxygen2rst (L "\c Foo and <tt> bar </tt>"))
     = doxygen2rst (L "\c Foo and <tt> bar </tt>").
Proof.
  split; [reflexivity|].
  apply (doxygen2rst_twice (L "\c Foo and <tt> bar </tt>")); reflexivity.
Defined.

(** C2 as written fails: removing a command can bring a backslash and a
    word together, and the second pass removes the command they form. *)
Lemma doxygen2rst_not_idempotent :
  doxygen2rst (L "\\a b ") = L "\b "
  /\ doxygen2rst (doxygen2rst (L "\\a b ")) = []
  /\ doxygen2rst (doxygen2rst (L "\\a b ")) <> doxygen2rst (L "\\a b ").
Proof. repeat split; try reflexivity. discriminate. Qed.

(** ** The [%] operator on a format without stray [%] *)

Lemma scan_plain arg used s t :
  existsb (is_char percent) s = false ->
  Fmt.scan arg Fmt.Plain used (s ++ t)
  = let! r := Fmt.scan arg Fmt.Plain used t in Ok (s ++ r).
Proof.
  induction s as [|c s IH]; intros H.
  - simpl. destruct (Fmt.scan arg Fmt.Plain used t); reflexivity.
  - cbn [existsb] in H. apply orb_false_iff in H as [Hc Hs].
    cbn [app Fmt.scan Fmt.feed]. rewrite Hc. cbn [bind].
    rewrite (IH Hs).
    destruct (Fmt.scan arg Fmt.Plain used t); reflexivity.
Qed.

Lemma scan_percent_s arg t :
  Fmt.scan arg Fmt.Plain false (L "%s" ++ t)
  = let! r := Fmt.scan arg Fmt.Plain true t in Ok (arg ++ r).
Proof.
  cbn -[Fmt.scan]. cbn [Fmt.scan]. unfold Fmt.feed at 1.
  replace (is_char percent "%") with true by reflexivity.
  cbn [bind]. cbn [Fmt.scan]. unfold Fmt.feed at 1.
  replace (is_char percent "s") with false by reflexivity.
  replace (is_char "(" "s") with false by reflexivity.
  replace (Fmt.flag arg false false "s")
    with (Ok (Fmt.pad false None (Fmt.truncate None arg), Fmt.Plain, true)
          : Fmt.action) by reflexivity.
  cbn [bind]. unfold Fmt.pad, Fmt.truncate. simpl repeat.
  destruct (Fmt.scan arg Fmt.Plain true t); reflexivity.
Qed.

Lemma format_one pre post arg :
  existsb (is_char percent) pre = false ->
  existsb (is_char percent) post = false ->
  Fmt.format (pre ++ L "%s" ++ post) arg = Ok (pre ++ arg ++ post).
Proof.
  intros Hpre Hpost. unfold Fmt.format.
  rewrite (scan_plain _ _ _ _ Hpre), scan_percent_s.
  rewrite <- (app_nil_r post) at 1. rewrite (scan_plain _ _ _ _ Hpost).
  simpl. rewrite app_nil_r. reflexivity.
Qed.

Lemma format_none s arg :
  existsb (is_char percent) s = false ->
  Fmt.format s arg = Raise TypeError.
Proof.
  intros H. unfold Fmt.format.
  rewrite <- (app_nil_r s). rewrite (scan_plain _ _ _ _ H). reflexivity.
Qed.

(** ** Occurrences *)

Lemma skipn_app_plus {A} (a b : list A) j :
  skipn (length a + j) (a ++ b) = skipn j b.
Proof. induction a as [|x a IH]; [reflexivity | exact IH]. Qed.

Lemma skipn_app_exact {A} (a b : list A) :
  skipn (length a) (a ++ b) = b.
Proof.
  rewrite <- (Nat.add_0_r (length a)). apply (skipn_app_plus a b 0).
Qed.

Lemma skipn_skipn_plus {A} (l : list A) i j :
  skipn i (skipn j l) = skipn (j + i) l.
Proof.
  revert l. induction j as [|j IH]; intros l; [reflexivity|].
  destruct l as [|x l]; [destruct i; reflexivity | apply IH].
Qed.

Lemma startswith_nil_false p : p <> [] -> startswith p [] = false.
Proof. destruct p; [contradiction | reflexivity]. Qed.

(** Whether [p] starts at an index depends on the next [length p]
    characters only. *)
Lemma startswith_app_long p u x :
  length p <= length u -> startswith p (u ++ x) = startswith p u.
Proof.
  revert u. induction p as [|a p IH]; intros u H; [reflexivity|].
  destruct u as [|c u]; simpl in H; [lia|].
  cbn [app startswith]. rewrite IH by lia. reflexivity.
Qed.

Lemma startswith_local p a x j :
  j + length p <= length a ->
  startswith p (skipn j (a ++ x)) = startswith p (skipn j a).
Proof.
  intros H. rewrite skipn_app.
  replace (j - length a) with 0 by lia. cbn [skipn].
  apply startswith_app_long. rewrite length_skipn. lia.
Qed.

Lemma find_some p s :
  forall n,
    find p s = Some n ->
    startswith p (skipn n s) = true
    /\ forall j, j < n -> startswith p (skipn j s) = false.
Proof.
  induction s as [|c s IH]; intros n; cbn [find].
  - destruct (startswith p []) eqn:E; [|discriminate].
    intros H. injection H as <-. split; [exact E | intros j; lia].
  - destruct (startswith p (c :: s)) eqn:E.
    + intros H. injection H as <-. split; [exact E | intros j; lia].
    + destruct (find p s) as [m|] eqn:F; [|discriminate].
      intros H. injection H as <-. destruct (IH m eq_refl) as [H1 H2].
      split; [exact H1|]. intros [|j] Hj; [exact E | apply H2; lia].
Qed.

Lemma find_none p s :
  find p s = None -> forall j, startswith p (skipn j s) = false.
Proof.
  induction s as [|c s IH]; cbn [find].
  - destruct (startswith p []) eqn:E; [discriminate|].
    intros _ [|j]; exact E.
  - destruct (startswith p (c :: s)) eqn:E; [discriminate|].
    destruct (find p s) as [m|] eqn:F; [discriminate|].
    intros _ [|j]; [exact E | apply (IH eq_refl)].
Qed.

Lemma rfind_some p s :
  p <> [] ->
  forall n,
    rfind p s = Some n ->
    startswith p (skipn n s) = true
    /\ forall j, n < j -> startswith p (skipn j s) = false.
Proof.
  intros Hp. induction s as [|c s IH]; intros n; cbn [rfind].
  - rewrite (startswith_nil_false _ Hp). discriminate.
  - destruct (rfind p s) as [m|] eqn:F.
    + intros H. injection H as <-. destruct (IH m eq_refl) as [H1 H2].
      split; [exact H1|]. intros [|j] Hj; [lia | apply H2; lia].
    + destruct (startswith p (c :: s)) eqn:E; [|discriminate].
      intros H. injection H as <-. split; [exact E|].
      intros [|j] Hj; [lia|]. clear IH E Hj. revert j.
      induction s as [|d s IHs]; intros j.
      * destruct j; apply (startswith_nil_false _ Hp).
      * cbn [rfind] in F. destruct (rfind p s); [discriminate|].
        destruct (startswith p (d :: s)) eqn:E; [discriminate|].
        destruct j; [exact E | apply (IHs eq_refl)].
Qed.

Lemma rfind_none p s :
  p <> [] ->
  rfind p s = None -> forall j, startswith p (skipn j s) = false.
Proof.
  intros Hp. induction s as [|d s IHs]; intros F j.
  - destruct j; apply (startswith_nil_false _ Hp).
  - cbn [rfind] in F. destruct (rfind p s); [discriminate|].
    destruct (startswith p (d :: s)) eqn:E; [discriminate|].
    destruct j; [exact E | apply (IHs eq_refl)].
Qed.

(** ** The pattern of [substitute] *)

Lemma star_greedy_dotall_none {A} s g (k : cont (A := A)) :
  (forall j, k (skipn j s) g = None) ->
  star_greedy dotall s g k = None.
Proof.
  induction s as [|c s IH]; intros H.
  - apply (H 0).
  - cbn [star_greedy dotall].
    rewrite (IH (fun j => H (S j))). apply (H 0).
Qed.

(** Greedy [.*] with DOTALL gives the text back at the last index from
    which the rest of the pattern matches. *)
Lemma star_greedy_dotall_last {A} a b g (k : cont (A := A)) r :
  k b g = Some r ->
  (forall j, 0 < j -> k (skipn j b) g = None) ->
  star_greedy dotall (a ++ b) g k = Some r.
Proof.
  intros Hb Hlater. induction a as [|x a IH].
  - destruct b as [|c b]; [exact Hb|].
    cbn [app star_greedy dotall].
    rewrite star_greedy_dotall_none; [exact Hb|].
    intros j. apply (Hlater (S j)). lia.
  - cbn [app star_greedy dotall]. rewrite IH. reflexivity.
Qed.

Lemma star_greedy_ext {A} p s g (k1 k2 : cont (A := A)) :
  (forall s' g', k1 s' g' = k2 s' g') ->
  star_greedy p s g k1 = star_greedy p s g k2.
Proof.
  intros H. induction s as [|c s IH]; cbn [star_greedy]; [apply H|].
  rewrite IH, H. reflexivity.
Qed.

Lemma start_marker_not_nil tag : start_marker tag <> [].
Proof. discriminate. Qed.

Lemma end_marker_not_nil tag : end_marker tag <> [].
Proof. discriminate. Qed.

Lemma region_match tag s :
  match_here (region_pattern tag) false s
  = if startswith (start_marker tag) s then
      star_greedy dotall (skipn (length (start_marker tag)) s) no_groups
        (fun s' g =>
           if startswith (end_marker tag) s'
           then Some (skipn (length (end_marker tag)) s', g) else None)
    else None.
Proof.
  unfold match_here, region_pattern, Cat. cbn [fold_right run].
  rewrite run_Lit. destruct (startswith (start_marker tag) s); [|reflexivity].
  apply star_greedy_ext. intros s' g. rewrite run_Lit. reflexivity.
Qed.

Lemma region_pattern_not_nullable tag : nullable (region_pattern tag) = false.
Proof. reflexivity. Qed.

(** No region starts where the begin marker is not, nor where no end
    marker follows the begin marker. *)
Lemma region_no_match tag t :
  startswith (start_marker tag) t = false
  \/ (forall j,
         startswith (end_marker tag)
                    (skipn (length (start_marker tag) + j) t) = false) ->
  match_here (region_pattern tag) false t = None.
Proof.
  intros H. rewrite region_match.
  destruct (startswith (start_marker tag) t) eqn:E; [|reflexivity].
  destruct H as [H|H]; [discriminate|].
  apply star_greedy_dotall_none. intros j.
  rewrite skipn_skipn_plus, H. reflexivity.
Qed.

Lemma sub_none r t s :
  nullable r = false ->
  (forall j, match_here r false (skipn j s) = None) ->
  sub_from r t 0 s = s.
Proof.
  intros Hn. induction s as [|c s IH]; intros H.
  - apply sub_from_nil, Hn.
  - rewrite sub_from_unfold by exact Hn.
    pose proof (H 0) as H0. cbn [skipn] in H0. rewrite H0.
    rewrite (IH (fun j => H (S j))). reflexivity.
Qed.

Lemma sub_skip_prefix r t pre rest :
  nullable r = false ->
  (forall j, j < length pre ->
             match_here r false (skipn j (pre ++ rest)) = None) ->
  sub_from r t 0 (pre ++ rest) = pre ++ sub_from r t 0 rest.
Proof.
  intros Hn. induction pre as [|c pre IH]; intros H; [reflexivity|].
  cbn [app]. rewrite sub_from_unfold by exact Hn.
  pose proof (H 0 ltac:(simpl; lia)) as H0. cbn [skipn app] in H0.
  rewrite H0.
  rewrite IH; [reflexivity|].
  intros j Hj. apply (H (S j)). simpl. lia.
Qed.

(** [re.sub] on a text whose region runs from the first begin marker to
    the last end marker: the region, and nothing else, becomes [%s]. *)
Lemma sub_region tag pre mid post :
  (forall j, j < length pre ->
             startswith (start_marker tag)
                        (skipn j (pre ++ start_marker tag)) = false) ->
  (forall j, 0 < j ->
             startswith (end_marker tag)
                        (skipn j (end_marker tag ++ post)) = false) ->
  re_sub (region_pattern tag) [Text (L "%s")]
         (pre ++ start_marker tag ++ mid ++ end_marker tag ++ post)
  = pre ++ L "%s" ++ post.
Proof.
  intros Hfirst Hlast. unfold re_sub.
  pose proof (region_pattern_not_nullable tag) as Hn.
  rewrite sub_skip_prefix; [|exact Hn|].
  2:{ intros j Hj. apply region_no_match. left.
      rewrite app_assoc. rewrite startswith_local.
      - apply Hfirst, Hj.
      - rewrite length_app. lia. }
  f_equal. rewrite sub_from_unfold by exact Hn.
  assert (match_here (region_pattern tag) false
            (start_marker tag ++ mid ++ end_marker tag ++ post)
          = Some (post, no_groups)) as ->.
  { rewrite region_match, startswith_app, skipn_app_exact.
    apply star_greedy_dotall_last.
    - rewrite startswith_app, skipn_app_exact. reflexivity.
    - intros j Hj. rewrite (Hlast j Hj). reflexivity. }
  cbn [expand flat_map]. rewrite app_nil_r. f_equal.
  apply sub_none; [exact Hn|].
  intros j. apply region_no_match. right. intros i.
  rewrite skipn_skipn_plus.
  rewrite <- (skipn_app_plus (end_marker tag) post).
  apply Hlast. pose proof (end_marker_not_nil tag).
  destruct (end_marker tag); [contradiction | simpl; lia].
Qed.

Lemma replacement_shape tag contents :
  [nl] ++ L ".. START_" ++ tag ++ [nl; nl] ++ contents
       ++ [nl; nl] ++ L ".. END_" ++ tag ++ [nl]
  = start_marker tag ++ ([nl] ++ contents ++ [nl]) ++ end_marker tag.
Proof.
  unfold start_marker, end_marker.
  repeat rewrite <- app_assoc. reflexivity.
Qed.

Lemma substitute_region tag contents pre mid post :
  (forall j, j < length pre ->
             startswith (start_marker tag)
                        (skipn j (pre ++ start_marker tag)) = false) ->
  (forall j, 0 < j ->
             startswith (end_marker tag)
                        (skipn j (end_marker tag ++ post)) = false) ->
  existsb (is_char percent) pre = false ->
  existsb (is_char percent) post = false ->
  substitute (pre ++ start_marker tag ++ mid ++ end_marker tag ++ post)
             tag contents
  = Ok (pre ++ start_marker tag ++ ([nl] ++ contents ++ [nl])
            ++ end_marker tag ++ post).
Proof.
  intros Hfirst Hlast Hpre Hpost. unfold substitute.
  rewrite (sub_region _ _ _ _ Hfirst Hlast).
  rewrite (format_one _ _ _ Hpre Hpost), replacement_shape.
  repeat rewrite <- app_assoc. reflexivity.
Qed.

(** From the positions reported by [find] and [rfind] to the two local
    facts above. *)
Lemma first_marker_local p pre x :
  find p (pre ++ p ++ x) = Some (length pre) ->
  forall j, j < length pre -> startswith p (skipn j (pre ++ p)) = false.
Proof.
  intros H j Hj. destruct (find_some _ _ _ H) as [_ Hbefore].
  rewrite <- (Hbefore j Hj). rewrite app_assoc. symmetry.
  apply startswith_local. rewrite length_app. lia.
Qed.

Lemma last_marker_local p a post :
  p <> [] ->
  rfind p (a ++ p ++ post) = Some (length a) ->
  forall j, 0 < j -> startswith p (skipn j (p ++ post)) = false.
Proof.
  intros Hp H j Hj. destruct (rfind_some _ _ Hp _ H) as [_ Hafter].
  rewrite <- (skipn_app_plus a (p ++ post)). apply Hafter. lia.
Qed.

(** ** [substitute] *)

(** C10.  When the region runs from the first begin marker to the last
    end marker and no [%] stands before or behind it, [substitute] returns
    the document with the region replaced and the rest untouched.  With a
    [%] outside the region this is lost: the call raises, or a [%%] outside
    the region shrinks to [%], or the new region lands on a [%s] of a
    document that has no region. *)
Theorem substitute_percent :
  (forall tag contents pre mid post,
      plain_tag tag = true ->
      find (start_marker tag)
           (pre ++ start_marker tag ++ mid ++ end_marker tag ++ post)
      = Some (length pre) ->
      rfind (end_marker tag)
            (pre ++ start_marker tag ++ mid ++ end_marker tag ++ post)
      = Some (length (pre ++ start_marker tag ++ mid)) ->
      existsb (is_char percent) pre = false ->
      existsb (is_char percent) post = false ->
      substitute (pre ++ start_marker tag ++ mid ++ end_marker tag ++ post)
                 tag contents
      = Ok (pre ++ start_marker tag ++ ([nl] ++ contents ++ [nl])
                ++ end_marker tag ++ post))
  /\ substitute (L "100% sure" ++ start_marker (L "X") ++ L "old"
                   ++ end_marker (L "X"))
                (L "X") (L "new")
     = Raise TypeError
  /\ substitute (L "50%% off" ++ start_marker (L "X") ++ L "old"
                   ++ end_marker (L "X"))
                (L "X") (L "new")
     = Ok (L "50% off" ++ start_marker (L "X") ++ [nl] ++ L "new" ++ [nl]
             ++ end_marker (L "X"))
  /\ substitute (L "see %s") (L "X") (L "new")
     = Ok (L "see " ++ start_marker (L "X") ++ [nl] ++ L "new" ++ [nl]
             ++ end_marker (L "X")).
Proof.
  split; [|repeat split; reflexivity].
  intros tag contents pre mid post _ Hfind Hrfind Hpre Hpost.
  apply substitute_region; try assumption.
  - apply (first_marker_local _ _ _ Hfind).
  - apply (last_marker_local _ (pre ++ start_marker tag ++ mid) post
                             (end_marker_not_nil tag)).
    repeat rewrite <- app_assoc. exact Hrfind.
Qed.

Lemma substitute_percent_witness :
  substitute (L "Intro." ++ start_marker (L "X") ++ L "old"
                ++ end_marker (L "X") ++ L "Outro.")
             (L "X") (L "new")
  = Ok (L "Intro." ++ start_marker (L "X") ++ ([nl] ++ L "new" ++ [nl])
          ++ end_marker (L "X") ++ L "Outro.").
Proof.
  apply (proj1 substitute_percent
               (L "X") (L "new") (L "Intro.") (L "old") (L "Outro."));
    reflexivity.
Defined.




Lemma no_region_no_match tag text :
  has_region tag text = false ->
  forall j, match_here (region_pattern tag) false (skipn j text) = None.
Proof.
  unfold has_region. intros H j. apply region_no_match.
  destruct (find (start_marker tag) text) as [i|] eqn:Hf.
  - destruct (find_some _ _ _ Hf) as [_ Hbefore].
    destruct (startswith (start_marker tag) (skipn j text)) eqn:Hj;
      [right | left; reflexivity].
    assert (i <= j) as Hij.
    { destruct (le_lt_dec i j) as [Hle|Hlt]; [exact Hle|].
      rewrite (Hbefore j Hlt) in Hj. discriminate. }
    intros x. rewrite skipn_skipn_plus.
    destruct (rfind (end_marker tag) text) as [n|] eqn:Hr.
    + destruct (rfind_some _ _ (end_marker_not_nil tag) _ Hr) as [_ Hafter].
      apply Hafter. apply Nat.leb_gt in H. lia.
    + apply (rfind_none _ _ (end_marker_not_nil tag) Hr).
  - left. apply (find_none _ _ Hf).
Qed.

(** C6, as amended.  On a document without region and without [%] the
    call raises. *)
Theorem substitute_without_region (text tag contents : str) :
  plain_tag tag = true ->
  has_region tag text = false ->
  existsb (is_char percent) text = false ->
  substitute text tag contents = Raise TypeError.
Proof.
  intros _ Hregion Hpercent. unfold substitute, re_sub.
  rewrite sub_none.
  - apply format_none, Hpercent.
  - apply region_pattern_not_nullable.
  - apply no_region_no_match, Hregion.
Qed.

Lemma substitute_without_region_witness :
  substitute (L "No markers here.") (L "X") (L "new") = Raise TypeError.
Proof.
  apply (substitute_without_region (L "No markers here.") (L "X") (L "new"));
    reflexivity.
Defined.

(** C6 as written fails: a document without region that holds [%s] gets
    the new region in its place, and nothing is raised. *)
Lemma substitute_without_region_splices :
  has_region (L "X") (L "see %s") = false
  /\ substitute (L "see %s") (L "X") (L "new")
     = Ok (L "see " ++ start_marker (L "X") ++ [nl] ++ L "new" ++ [nl]
             ++ end_marker (L "X")).
Proof. split; reflexivity. Qed.

(** ** The vocabulary means what it says *)

Lemma find_le p s :
  forall m,
    startswith p (skipn m s) = true -> m <= length s ->
    exists i, find p s = Some i /\ i <= m.
Proof.
  induction s as [|c s IH]; intros m H Hm; cbn [find].
  - simpl in Hm. replace m with 0 in * by lia. cbn [skipn] in H.
    rewrite H. exists 0. auto.
  - destruct (startswith p (c :: s)) eqn:E; [exists 0; split; [auto|lia]|].
    destruct m as [|m]; [cbn [skipn] in H; congruence|].
    cbn [skipn] in H. simpl in Hm.
    destruct (IH m H ltac:(lia)) as (i & -> & Hi).
    exists (S i). split; [reflexivity | lia].
Qed.

Lemma rfind_ge p s :
  forall m,
    startswith p (skipn m s) = true -> m <= length s ->
    exists n, rfind p s = Some n /\ m <= n.
Proof.
  induction s as [|c s IH]; intros m H Hm; cbn [rfind].
  - simpl in Hm. replace m with 0 in * by lia. cbn [skipn] in H.
    rewrite H. exists 0. auto.
  - destruct m as [|m].
    + cbn [skipn] in H. destruct (rfind p s) as [j|].
      * exists (S j). split; [reflexivity | lia].
      * rewrite H. exists 0. auto.
    + cbn [skipn] in H. simpl in Hm.
      destruct (IH m H ltac:(lia)) as (n & -> & Hn).
      exists (S n). split; [reflexivity | lia].
Qed.

(** [has_region] holds exactly of the texts that have a begin marker,
    any text, and an end marker in this order. *)
Lemma has_region_spec tag text :
  has_region tag text = true
  <-> exists pre mid post,
      text = pre ++ start_marker tag ++ mid ++ end_marker tag ++ post.
Proof.
  unfold has_region. split.
  - destruct (find (start_marker tag) text) as [i|] eqn:Hf; [|discriminate].
    destruct (rfind (end_marker tag) text) as [n|] eqn:Hr; [|discriminate].
    intros Hle. apply Nat.leb_le in Hle.
    destruct (find_some _ _ _ Hf) as [Hs _].
    destruct (rfind_some _ _ (end_marker_not_nil tag) _ Hr) as [He _].
    apply startswith_true in Hs as [t1 Ht1].
    apply startswith_true in He as [post Hpost].
    exists (firstn i text),
      (firstn (n - i - length (start_marker tag)) t1), post.
    rewrite <- Hpost.
    replace n with (i + (length (start_marker tag)
                         + (n - i - length (start_marker tag)))) at 2 by lia.
    rewrite <- skipn_skipn_plus, Ht1, skipn_app_plus.
    rewrite firstn_skipn. rewrite <- Ht1. symmetry. apply firstn_skipn.
  - intros (pre & mid & post & ->).
    destruct (find_le (start_marker tag)
                (pre ++ start_marker tag ++ mid ++ end_marker tag ++ post)
                (length pre)) as (i & -> & Hi).
    { rewrite skipn_app_exact. apply startswith_app. }
    { rewrite length_app. lia. }
    destruct (rfind_ge (end_marker tag)
                (pre ++ start_marker tag ++ mid ++ end_marker tag ++ post)
                (length (pre ++ start_marker tag ++ mid))) as (n & -> & Hn).
    { replace (pre ++ start_marker tag ++ mid ++ end_marker tag ++ post)
        with ((pre ++ start_marker tag ++ mid) ++ end_marker tag ++ post)
        by (repeat rewrite <- app_assoc; reflexivity).
      rewrite skipn_app_exact. apply startswith_app. }
    { repeat rewrite length_app. lia. }
    apply Nat.leb_le. repeat rewrite length_app in Hn. lia.
Qed.

Lemma after_last_underscore_spec a b :
  existsb (is_char "_") b = false ->
  after_last_underscore (a ++ "_"%char :: b) = b.
Proof.
  intros Hb. induction a as [|c a IH].
  - cbn [app after_last_underscore existsb]. rewrite is_char_refl.
    cbn [orb]. apply after_last_underscore_none, Hb.
  - cbn [app after_last_underscore].
    replace (existsb (is_char "_") (c :: a ++ "_"%char :: b)) with true;
      [exact IH|].
    symmetry. cbn [existsb]. rewrite existsb_app. cbn [existsb].
    rewrite is_char_refl. rewrite orb_true_l, !orb_true_r. reflexivity.
Qed.

(* ===================================================================== *)
(** * Further properties of [read_options] *)
(* ===================================================================== *)

(** The loop over two stretches of lines: the second stretch is read
    only when the first did not end in [Finished]. *)
Lemma loop_app h1 :
  forall v h2,
    state v <> Finished ->
    loop v (h1 ++ h2)
    = let! v1 := loop v h1 in
      match state v1 with
      | Finished => Ok v1
      | _ => loop v1 h2
      end.
Proof.
  induction h1 as [|line h1 IH]; intros v h2 Hv.
  - simpl. destruct (state v); try reflexivity. contradiction.
  - cbn [app loop].
    destruct (body v line) as [[[] v1]|e] eqn:Hb; cbn [bind].
    + apply IH. apply (body_continue _ _ _ Hb Hv).
    + destruct (body_break _ _ _ Hb) as (_ & _ & ->). reflexivity.
    + reflexivity.
Qed.

Lemma loop_before_struct junk :
  forall v,
    state v = BeforeStruct ->
    existsb opens_struct junk = false ->
    loop v junk = Ok v.
Proof.
  induction junk as [|line junk IH]; intros v Hv H; [reflexivity|].
  cbn [existsb] in H. apply orb_false_iff in H as [Hline Hjunk].
  cbn [loop]. unfold body. rewrite Hv.
  unfold opens_struct in Hline. rewrite Hline. cbn [bind].
  apply (IH v Hv Hjunk).
Qed.

(** X1.  Lines in front of the declaration are skipped: as long as none
    of them is one of the two opening lines, they change nothing. *)
Theorem read_options_skips_preamble
        (junk header : list str) (known : str -> bool) :
  existsb opens_struct junk = false ->
  read_options (junk ++ header) known = read_options header known.
Proof.
  intros H. unfold read_options.
  rewrite loop_app by discriminate.
  rewrite (loop_before_struct junk initial eq_refl H). reflexivity.
Qed.

Lemma read_options_skips_preamble_witness :
  read_options ([L "#include <string>"; []; L "namespace clang {"]
                  ++ [L "struct FormatStyle {"; L "};"])
               (fun _ => true)
  = read_options [L "struct FormatStyle {"; L "};"] (fun _ => true).
Proof.
  apply (read_options_skips_preamble
           [L "#include <string>"; []; L "namespace clang {"]
           [L "struct FormatStyle {"; L "};"] (fun _ => true)).
  reflexivity.
Defined.

(** X2.  A header in which no line opens the declaration raises the
    incomplete-input error, whatever else it holds. *)
Theorem read_options_without_struct
        (header : list str) (known : str -> bool) :
  existsb opens_struct header = false ->
  read_options header known = Raise not_finished.
Proof.
  intros H. unfold read_options.
  rewrite (loop_before_struct header initial eq_refl H). reflexivity.
Qed.

Lemma read_options_without_struct_witness :
  read_options [L "/// Doc."; L "int x;"; L "};"] (fun _ => true)
  = Raise (Exception (L "Not finished by the end of file")).
Proof.
  apply (read_options_without_struct
           [L "/// Doc."; L "int x;"; L "};"] (fun _ => true)).
  reflexivity.
Defined.

Lemma unknown_type_is_not_not_finished t : unknown_type t <> not_finished.
Proof. discriminate. Qed.

(** X3.  Every outcome but the incomplete-input error is final: lines
    added behind a header that returned, or that raised a format or
    unresolved-type error, are never read. *)
Theorem read_options_ignores_trailer
        (header extra : list str) (known : str -> bool) :
  read_options header known <> Raise not_finished ->
  read_options (header ++ extra) known = read_options header known.
Proof.
  intros H. unfold read_options in *.
  rewrite loop_app by discriminate.
  destruct (loop initial header) as [v|e]; [|reflexivity].
  cbn [bind] in *. unfold finish in H.
  destruct (state v); try reflexivity; contradiction.
Qed.

Lemma read_options_ignores_trailer_witness :
  read_options ([L "struct FormatStyle {"; L "/// Doc."; L "int x;"; L "};"]
                  ++ [L "garbage"; L "/// more"; L "enum"])
               (fun _ => true)
  = read_options [L "struct FormatStyle {"; L "/// Doc."; L "int x;"; L "};"]
                 (fun _ => true).
Proof.
  apply (read_options_ignores_trailer
           [L "struct FormatStyle {"; L "/// Doc."; L "int x;"; L "};"]
           [L "garbage"; L "/// more"; L "enum"] (fun _ => true)).
  discriminate.
Defined.

Lemma body_options v line f v' :
  body v line = Ok (f, v') -> exists new, options v' = options v ++ new.
Proof.
  unfold body. intros H.
  repeat case_match; simplify_eq;
    first [ exists []; cbn; rewrite app_nil_r; reflexivity
          | eexists; cbn; reflexivity ].
Qed.

Lemma loop_options header :
  forall v v', loop v header = Ok v' ->
               exists new, options v' = options v ++ new.
Proof.
  induction header as [|line rest IH]; intros v v' H; simpl in H.
  - injection H as <-. exists []. rewrite app_nil_r. reflexivity.
  - destruct (body v line) as [[[] v1]|e] eqn:Hb; simpl in H;
      try discriminate;
      destruct (body_options _ _ _ _ Hb) as [new1 H1].
    + destruct (IH _ _ H) as [new2 H2]. exists (new1 ++ new2).
      rewrite H2, H1, app_assoc. reflexivity.
    + injection H as <-. exists new1. exact H1.
Qed.

(** X4.  Reading on never removes or reorders what has been parsed: the
    options held after more lines start with the options held before. *)
Theorem options_kept_in_order (h1 h2 : list str) (v1 v2 : vars) :
  loop initial h1 = Ok v1 ->
  loop initial (h1 ++ h2) = Ok v2 ->
  exists new, options v2 = options v1 ++ new.
Proof.
  intros H1 H2. rewrite loop_app in H2 by discriminate.
  rewrite H1 in H2. cbn [bind] in H2.
  destruct (state v1);
    try (apply (loop_options _ _ _ H2));
    injection H2 as <-; exists []; rewrite app_nil_r; reflexivity.
Qed.

Lemma options_kept_in_order_witness :
  exists new,
    [Option.__init__ (L "x") (L "int") (L "A.")]
      ++ [Option.__init__ (L "y") (L "bool") (L "B.")]
    = [Option.__init__ (L "x") (L "int") (L "A.")] ++ new.
Proof.
  apply (options_kept_in_order
           [L "struct FormatStyle {"; L "/// A."; L "int x;"]
           [L "/// B."; L "bool y;"]
           {| state := InStruct;
              options := [Option.__init__ (L "x") (L "int") (L "A.")];
              enums := ∅; nested_structs := ∅; comment := L "A." ++ [nl];
              enum := None; nested_struct := None |}
           {| state := InStruct;
              options := [Option.__init__ (L "x") (L "int") (L "A.")]
                           ++ [Option.__init__ (L "y") (L "bool") (L "B.")];
              enums := ∅; nested_structs := ∅; comment := L "B." ++ [nl];
              enum := None; nested_struct := None |});
    vm_compute; reflexivity.
Defined.

(** X5.  In what [read_options] returns, an option of a known type has
    neither an enumeration nor a nested struct; an option of another type
    has one of the two and never both. *)
Theorem one_attachment
        (header : list str) (known : str -> bool)
        (opts : list Option.t) (o : Option.t) :
  read_options header known = Ok opts ->
  In o opts ->
  (known (Option.type o) = true ->
   Option.enum o = None /\ Option.nested_struct o = None)
  /\ (known (Option.type o) = false ->
      (is_Some (Option.enum o) /\ Option.nested_struct o = None)
      \/ (Option.enum o = None /\ is_Some (Option.nested_struct o))).
Proof.
  intros H Ho. unfold read_options in H.
  destruct (loop initial header) as [v|] eqn:Hloop; [|discriminate].
  simpl in H. unfold finish in H.
  destruct (state v); try discriminate.
  assert (unattached v) as Hnone.
  { apply (loop_unattached header initial v); [constructor | exact Hloop]. }
  apply resolve_all_attached in H. unfold unattached in Hnone.
  revert Hnone Ho. induction H as [|p p' ps ps' Hp _ IH];
    intros Hnone Ho; [destruct Ho|].
  apply Forall_cons in Hnone as [[He Hn] Hnone].
  destruct Ho as [<-|Ho]; [|apply (IH Hnone Ho)].
  destruct (known (Option.type p)) eqn:Hk.
  - subst p'. rewrite Hk. split; [auto | discriminate].
  - destruct (enums v !! Option.type p) as [e0|].
    + subst p'. cbn. rewrite Hk. split; [discriminate|].
      intros _. left. split; [eexists; reflexivity | exact Hn].
    + destruct (nested_structs v !! Option.type p); [|contradiction].
      subst p'. cbn. rewrite Hk. split; [discriminate|].
      intros _. right. split; [exact He | eexists; reflexivity].
Qed.

Lemma one_attachment_witness :
  (is_Some (Option.enum
              (Option.set_nested_struct
                 (Option.__init__ (L "f") (L "N") (L "d" ++ [nl]))
                 (NestedStruct.__init__ (L "N") (L "c" ++ [nl]))))
   /\ Option.nested_struct
        (Option.set_nested_struct
           (Option.__init__ (L "f") (L "N") (L "d" ++ [nl]))
           (NestedStruct.__init__ (L "N") (L "c" ++ [nl]))) = None)
  \/ (Option.enum
        (Option.set_nested_struct
           (Option.__init__ (L "f") (L "N") (L "d" ++ [nl]))
           (NestedStruct.__init__ (L "N") (L "c" ++ [nl]))) = None
      /\ is_Some (Option.nested_struct
                    (Option.set_nested_struct
                       (Option.__init__ (L "f") (L "N") (L "d" ++ [nl]))
                       (NestedStruct.__init__ (L "N") (L "c" ++ [nl]))))).
Proof.
  refine (proj2 (one_attachment
           [L "struct FormatStyle {"; L "/// c"; L "struct N {"; L "};";
            L "/// d"; L "N f;"; L "};"]
           (fun _ => false)
           [Option.set_nested_struct
              (Option.__init__ (L "f") (L "N") (L "d" ++ [nl]))
              (NestedStruct.__init__ (L "N") (L "c" ++ [nl]))]
           (Option.set_nested_struct
              (Option.__init__ (L "f") (L "N") (L "d" ++ [nl]))
              (NestedStruct.__init__ (L "N") (L "c" ++ [nl])))
           _ _) _).
  - vm_compute. reflexivity.
  - left. reflexivity.
  - reflexivity.
Defined.

(* ===================================================================== *)
(** * Further properties of the patterns *)
(* ===================================================================== *)

(** ** Character classes and [strip] *)

Lemma space_not_word c : isspace c = true -> isword c = false.
Proof.
  destruct c as [[] [] [] [] [] [] [] []]; vm_compute; intros H;
    first [reflexivity | discriminate H].
Qed.

Lemma word_not_space c : isword c = true -> isspace c = false.
Proof.
  intros H. destruct (isspace c) eqn:E; [|reflexivity].
  rewrite (space_not_word _ E) in H. discriminate.
Qed.

Lemma lstrip_spaces lead s :
  forallb isspace lead = true -> lstrip (lead ++ s) = lstrip s.
Proof.
  induction lead as [|c lead IH]; [reflexivity|].
  cbn [forallb]. intros H. apply andb_true_iff in H as [Hc Hl].
  cbn [app lstrip]. rewrite Hc. apply (IH Hl).
Qed.

Lemma lstrip_text s : isspace (hd " "%char s) = false -> lstrip s = s.
Proof. destruct s as [|c s]; simpl; [reflexivity|]. intros ->. reflexivity. Qed.

Lemma forallb_rev {A} (f : A -> bool) l :
  forallb f (rev l) = forallb f l.
Proof.
  induction l as [|x l IH]; [reflexivity|].
  cbn [rev forallb]. rewrite forallb_app, IH. cbn [forallb].
  rewrite andb_true_r. apply andb_comm.
Qed.

(** [strip] cuts the white space at both ends off and nothing else. *)
Lemma strip_core lead core trail :
  forallb isspace lead = true ->
  forallb isspace trail = true ->
  isspace (hd " "%char core) = false ->
  isspace (List.last core " "%char) = false ->
  strip (lead ++ core ++ trail) = core.
Proof.
  intros Hlead Htrail Hhd Hlast. unfold strip.
  assert (lstrip (lead ++ core ++ trail) = core ++ trail) as ->.
  { rewrite (lstrip_spaces _ _ Hlead). apply lstrip_text.
    destruct core; [discriminate Hhd | exact Hhd]. }
  rewrite rev_app_distr.
  assert (lstrip (rev trail ++ rev core) = rev core) as ->.
  { rewrite lstrip_spaces by (rewrite forallb_rev; exact Htrail).
    apply lstrip_text.
    destruct core as [|c core _] using rev_ind; [discriminate Hhd|].
    rewrite rev_app_distr. cbn [rev app hd].
    rewrite last_last in Hlast. exact Hlast. }
  apply rev_involutive.
Qed.

(** ** Greedy repetition *)

Lemma star_greedy_fail {A} p s g (k : cont (A := A)) :
  (forall j, j <= length s -> forallb p (firstn j s) = true ->
             k (skipn j s) g = None) ->
  star_greedy p s g k = None.
Proof.
  induction s as [|c s IH]; intros H.
  - apply (H 0); [lia | reflexivity].
  - cbn [star_greedy]. destruct (p c) eqn:Hc.
    + rewrite IH.
      * apply (H 0); [simpl; lia | reflexivity].
      * intros j Hj Hf. apply (H (S j)); [simpl; lia|].
        cbn [firstn forallb]. rewrite Hc. exact Hf.
    + apply (H 0); [simpl; lia | reflexivity].
Qed.

(** Greedy [p*] hands over at the last index from which the rest of the
    pattern matches, among the indices it can reach. *)
Lemma star_greedy_split {A} p a b g (k : cont (A := A)) r :
  forallb p a = true ->
  k b g = Some r ->
  (forall j, 0 < j -> j <= length b -> forallb p (firstn j b) = true ->
             k (skipn j b) g = None) ->
  star_greedy p (a ++ b) g k = Some r.
Proof.
  intros Ha Hb Hlater. induction a as [|x a IH].
  - destruct b as [|c b]; [exact Hb|].
    cbn [app star_greedy]. destruct (p c) eqn:Hc; [|exact Hb].
    rewrite star_greedy_fail; [exact Hb|].
    intros j Hj Hf. apply (Hlater (S j)); [lia | simpl; lia|].
    cbn [firstn forallb]. rewrite Hc. exact Hf.
  - cbn [forallb] in Ha. apply andb_true_iff in Ha as [Hx Ha].
    cbn [app star_greedy]. rewrite Hx, (IH Ha). reflexivity.
Qed.

(** The common case: the repetition runs into a character outside the
    class, or into the end, and the rest of the pattern matches there. *)
Lemma star_greedy_stop {A} p a b g (k : cont (A := A)) r :
  forallb p a = true ->
  p (hd (ascii_of_nat 0) b) = false \/ b = [] ->
  k b g = Some r ->
  star_greedy p (a ++ b) g k = Some r.
Proof.
  intros Ha Hstop Hb. apply star_greedy_split; [exact Ha | exact Hb|].
  intros j Hj Hle Hf. destruct Hstop as [Hstop| ->]; [|simpl in Hle; lia].
  destruct b as [|c b]; [simpl in Hle; lia|].
  destruct j; [lia|]. cbn [firstn forallb hd] in *.
  rewrite Hstop in Hf. discriminate.
Qed.

Lemma orelse_first {A} (x y : option A) r :
  x = Some r -> orelse x y = Some r.
Proof. intros ->. reflexivity. Qed.

Lemma run_plus_stop {A} p x b g (k : cont (A := A)) r :
  x <> [] ->
  forallb p x = true ->
  p (hd (ascii_of_nat 0) b) = false \/ b = [] ->
  k b g = Some r ->
  run (Plus p) (x ++ b) g k = Some r.
Proof.
  intros Hx Hp Hstop Hk. destruct x as [|c x]; [contradiction|].
  cbn [forallb] in Hp. apply andb_true_iff in Hp as [Hc Hp].
  unfold Plus. cbn [app run]. rewrite Hc.
  apply star_greedy_stop; assumption.
Qed.

Lemma run_star_stop {A} p a b g (k : cont (A := A)) r :
  forallb p a = true ->
  p (hd (ascii_of_nat 0) b) = false \/ b = [] ->
  k b g = Some r ->
  run (Star true p) (a ++ b) g k = Some r.
Proof. apply star_greedy_stop. Qed.

Lemma firstn_matched {A} (x b : list A) :
  firstn (length (x ++ b) - length b) (x ++ b) = x.
Proof.
  rewrite length_app. replace (length x + length b - length b) with
    (length x + 0) by lia.
  rewrite firstn_app_2. cbn [firstn]. apply app_nil_r.
Qed.

(** A group around [p+] captures the run of [p] it stops behind. *)
Lemma run_group_plus_stop {A} n p x b g (k : cont (A := A)) r :
  x <> [] ->
  forallb p x = true ->
  p (hd (ascii_of_nat 0) b) = false \/ b = [] ->
  k b (set_group n x g) = Some r ->
  run (Grp n (Plus p)) (x ++ b) g k = Some r.
Proof.
  intros Hx Hp Hstop Hk. cbn [run].
  apply run_plus_stop; try assumption.
  rewrite firstn_matched. exact Hk.
Qed.

Lemma stop_at_word c N rest :
  isword c = true -> isspace (hd (ascii_of_nat 0) ((c :: N) ++ rest)) = false.
Proof. apply word_not_space. Qed.

Lemma stop_at_brace ws rest :
  forallb isspace ws = true ->
  isword (hd (ascii_of_nat 0) (ws ++ "{"%char :: rest)) = false.
Proof.
  destruct ws as [|c ws]; [reflexivity|].
  cbn [forallb]. intros H. apply andb_true_iff in H as [H _].
  apply space_not_word, H.
Qed.

(** ** The headers of nested structs and enumerations *)

Lemma struct_match ws N ws2 rest :
  ws <> [] -> forallb isspace ws = true ->
  N <> [] -> forallb isword N = true ->
  forallb isspace ws2 = true ->
  exists g,
    match_here struct_pattern false
               (L "struct" ++ ws ++ N ++ ws2 ++ "{"%char :: rest)
    = Some (rest, g)
    /\ g 1 = Some N.
Proof.
  intros Hws Hws' HN HN' Hws2.
  exists (set_group 1 N no_groups). split; [|reflexivity].
  unfold match_here, struct_pattern, Cat. cbn [fold_right run].
  rewrite run_Lit, startswith_app, skipn_app_exact.
  apply run_plus_stop; try assumption.
  { left. destruct N as [|c N]; [contradiction|].
    cbn [forallb] in HN'. apply andb_true_iff in HN' as [Hc _].
    apply (stop_at_word c N _ Hc). }
  cbn beta. apply run_plus_stop; try assumption.
  { left. apply stop_at_brace, Hws2. }
  cbn beta. rewrite firstn_matched.
  apply star_greedy_stop; [exact Hws2 | left; reflexivity|].
  reflexivity.
Qed.

Lemma enum_match ws N ws2 rest :
  ws <> [] -> forallb isspace ws = true ->
  N <> [] -> forallb isword N = true ->
  forallb isspace ws2 = true ->
  exists g,
    match_here enum_pattern false
               (L "enum" ++ ws ++ N ++ ws2 ++ "{"%char :: rest)
    = Some (rest, g)
    /\ g 1 = Some N.
Proof.
  intros Hws Hws' HN HN' Hws2.
  exists (set_group 1 N no_groups). split; [|reflexivity].
  unfold match_here, enum_pattern, Cat. cbn [fold_right run].
  rewrite run_Lit, startswith_app, skipn_app_exact.
  apply run_plus_stop; try assumption.
  { left. destruct N as [|c N]; [contradiction|].
    cbn [forallb] in HN'. apply andb_true_iff in HN' as [Hc _].
    apply (stop_at_word c N _ Hc). }
  cbn beta. apply run_plus_stop; try assumption.
  { left. apply stop_at_brace, Hws2. }
  cbn beta. rewrite firstn_matched.
  apply star_greedy_stop; [exact Hws2 | left; reflexivity|].
  reflexivity.
Qed.

Lemma enum_match_typed ws N ws2 ws3 T ws4 rest :
  ws <> [] -> forallb isspace ws = true ->
  N <> [] -> forallb isword N = true ->
  forallb isspace ws2 = true ->
  forallb isspace ws3 = true ->
  T <> [] -> forallb isword T = true ->
  forallb isspace ws4 = true ->
  exists g,
    match_here enum_pattern false
               (L "enum" ++ ws ++ N ++ ws2 ++ ":"%char
                  :: ws3 ++ T ++ ws4 ++ "{"%char :: rest)
    = Some (rest, g)
    /\ g 1 = Some N.
Proof.
  intros Hws Hws' HN HN' Hws2 Hws3 HT HT' Hws4.
  eexists. split.
  - unfold match_here, enum_pattern, Cat. cbn [fold_right run].
    rewrite run_Lit, startswith_app, skipn_app_exact.
    apply run_plus_stop; try assumption.
    { left. destruct N as [|c N]; [contradiction|].
      cbn [forallb] in HN'. apply andb_true_iff in HN' as [Hc _].
      apply (stop_at_word c N _ Hc). }
    cbn beta. apply run_plus_stop; try assumption.
    { left. destruct ws2 as [|c ws2]; [reflexivity|].
      cbn [forallb] in Hws2. apply andb_true_iff in Hws2 as [H _].
      apply space_not_word, H. }
    cbn beta. rewrite firstn_matched.
    apply star_greedy_stop; [exact Hws2 | left; reflexivity|].
    replace (is_char ":" ":") with true by reflexivity.
    apply orelse_first.
    apply star_greedy_stop; [exact Hws3| |].
    { left. destruct T as [|c T]; [contradiction|].
      cbn [forallb] in HT'. apply andb_true_iff in HT' as [Hc _].
      apply (stop_at_word c T _ Hc). }
    apply run_plus_stop; try assumption.
    { left. apply stop_at_brace, Hws4. }
    cbn beta. apply star_greedy_stop; [exact Hws4 | left; reflexivity|].
    reflexivity.
  - reflexivity.
Qed.

Lemma sub_one_match r t s g :
  nullable r = false ->
  match_here r false s = Some ([], g) ->
  re_sub r t s = expand t g.
Proof.
  intros Hn H. unfold re_sub. rewrite sub_from_unfold by exact Hn.
  rewrite H, (sub_from_nil _ _ Hn). apply app_nil_r.
Qed.

Lemma struct_name ws N ws2 :
  ws <> [] -> forallb isspace ws = true ->
  N <> [] -> forallb isword N = true ->
  forallb isspace ws2 = true ->
  re_sub struct_pattern [Ref 1] (L "struct" ++ ws ++ N ++ ws2 ++ L "{") = N.
Proof.
  intros Hws Hws' HN HN' Hws2.
  destruct (struct_match ws N ws2 [] Hws Hws' HN HN' Hws2) as (g & Hm & Hg).
  change (L "{") with ["{"%char].
  rewrite (sub_one_match struct_pattern _ _ g eq_refl Hm).
  cbn [expand flat_map]. rewrite Hg. apply app_nil_r.
Qed.

Lemma enum_name ws N ws2 underlying :
  ws <> [] -> forallb isspace ws = true ->
  N <> [] -> forallb isword N = true ->
  forallb isspace ws2 = true ->
  underlying = []
  \/ (exists ws3 T ws4,
         underlying = ":"%char :: ws3 ++ T ++ ws4
         /\ forallb isspace ws3 = true
         /\ T <> [] /\ forallb isword T = true
         /\ forallb isspace ws4 = true) ->
  re_sub enum_pattern [Ref 1]
         (L "enum" ++ ws ++ N ++ ws2 ++ underlying ++ L "{")
  = N.
Proof.
  intros Hws Hws' HN HN' Hws2 [->|(ws3 & T & ws4 & -> & H3 & HT & HT' & H4)].
  - destruct (enum_match ws N ws2 [] Hws Hws' HN HN' Hws2) as (g & Hm & Hg).
    change ([] ++ L "{") with ["{"%char].
    rewrite (sub_one_match enum_pattern _ _ g eq_refl Hm).
    cbn [expand flat_map]. rewrite Hg. apply app_nil_r.
  - destruct (enum_match_typed ws N ws2 ws3 T ws4 []
                Hws Hws' HN HN' Hws2 H3 HT HT' H4) as (g & Hm & Hg).
    replace (L "enum" ++ ws ++ N ++ ws2 ++ (":"%char :: ws3 ++ T ++ ws4)
               ++ L "{")
      with (L "enum" ++ ws ++ N ++ ws2 ++ ":"%char
              :: ws3 ++ T ++ ws4 ++ ["{"%char]).
    2:{ cbn [app]. repeat rewrite <- app_assoc. reflexivity. }
    rewrite (sub_one_match enum_pattern _ _ g eq_refl Hm).
    cbn [expand flat_map]. rewrite Hg. apply app_nil_r.
Qed.

Lemma last_brace x : List.last (x ++ L "{") " "%char = "{"%char.
Proof. apply (last_last x "{"%char). Qed.

(** X6.  In state [InFieldComment] a line [struct N {], with any white
    space around it and between its parts, opens the nested struct named
    [N] whose comment is the accumulated comment, stripped. *)
Theorem nested_struct_header (v : vars) (lead ws N ws2 trail : str) :
  state v = InFieldComment ->
  forallb isspace lead = true -> forallb isspace trail = true ->
  ws <> [] -> forallb isspace ws = true ->
  N <> [] -> forallb isword N = true ->
  forallb isspace ws2 = true ->
  body v (lead ++ (L "struct" ++ ws ++ N ++ ws2 ++ L "{") ++ trail)
  = Ok (Continue,
        set_nested_struct
          (Some {| NestedStruct.name := N;
                   NestedStruct.comment := strip (comment v);
                   NestedStruct.values := [] |})
          (set_state InNestedStruct v)).
Proof.
  intros Hst Hlead Htrail Hws Hws' HN HN' Hws2. unfold body.
  rewrite Hst, (strip_core _ _ _ Hlead Htrail); [|reflexivity|].
  2:{ replace (L "struct" ++ ws ++ N ++ ws2 ++ L "{")
        with ((L "struct" ++ ws ++ N ++ ws2) ++ L "{")
        by (repeat rewrite <- app_assoc; reflexivity).
      rewrite last_brace. reflexivity. }
  replace (startswith (L "///") (L "struct" ++ ws ++ N ++ ws2 ++ L "{"))
    with false by reflexivity.
  replace (startswith (L "enum") (L "struct" ++ ws ++ N ++ ws2 ++ L "{"))
    with false by reflexivity.
  rewrite startswith_app.
  rewrite (struct_name _ _ _ Hws Hws' HN HN' Hws2). reflexivity.
Qed.

Lemma nested_struct_header_witness :
  body (set_comment (L " Flags. " ++ [nl]) (set_state InFieldComment initial))
       (L "  " ++ (L "struct" ++ L " " ++ L "BraceWrappingFlags" ++ L " "
                     ++ L "{") ++ [])
  = Ok (Continue,
        set_nested_struct
          (Some {| NestedStruct.name := L "BraceWrappingFlags";
                   NestedStruct.comment := L "Flags.";
                   NestedStruct.values := [] |})
          (set_state InNestedStruct
             (set_comment (L " Flags. " ++ [nl])
                          (set_state InFieldComment initial)))).
Proof.
  apply (nested_struct_header
           (set_comment (L " Flags. " ++ [nl])
                        (set_state InFieldComment initial))
           (L "  ") (L " ") (L "BraceWrappingFlags") (L " ") []);
    try reflexivity; discriminate.
Defined.

(** X7.  In state [InFieldComment] a line [enum N {] or
    [enum N : T {] opens the enumeration named [N]: the underlying type
    is no part of the name. *)
Theorem enum_header (v : vars) (lead ws N ws2 underlying trail : str) :
  state v = InFieldComment ->
  forallb isspace lead = true -> forallb isspace trail = true ->
  ws <> [] -> forallb isspace ws = true ->
  N <> [] -> forallb isword N = true ->
  forallb isspace ws2 = true ->
  underlying = []
  \/ (exists ws3 T ws4,
         underlying = ":"%char :: ws3 ++ T ++ ws4
         /\ forallb isspace ws3 = true
         /\ T <> [] /\ forallb isword T = true
         /\ forallb isspace ws4 = true) ->
  body v (lead ++ (L "enum" ++ ws ++ N ++ ws2 ++ underlying ++ L "{")
               ++ trail)
  = Ok (Continue,
        set_enum
          (Some {| Enum.name := N; Enum.comment := strip (comment v);
                   Enum.values := [] |})
          (set_state InEnum v)).
Proof.
  intros Hst Hlead Htrail Hws Hws' HN HN' Hws2 Hu. unfold body.
  rewrite Hst, (strip_core _ _ _ Hlead Htrail); [|reflexivity|].
  2:{ replace (L "enum" ++ ws ++ N ++ ws2 ++ underlying ++ L "{")
        with ((L "enum" ++ ws ++ N ++ ws2 ++ underlying) ++ L "{")
        by (repeat rewrite <- app_assoc; reflexivity).
      rewrite last_brace. reflexivity. }
  replace (startswith (L "///")
                      (L "enum" ++ ws ++ N ++ ws2 ++ underlying ++ L "{"))
    with false by reflexivity.
  rewrite startswith_app.
  rewrite (enum_name _ _ _ _ Hws Hws' HN HN' Hws2 Hu). reflexivity.
Qed.

Lemma enum_header_witness :
  body (set_comment (L "Styles." ++ [nl]) (set_state InFieldComment initial))
       (L "  " ++ (L "enum" ++ L " " ++ L "BracketAlignmentStyle" ++ L " "
                     ++ (":"%char :: L " " ++ L "int8_t" ++ L " ") ++ L "{")
             ++ [])
  = Ok (Continue,
        set_enum
          (Some {| Enum.name := L "BracketAlignmentStyle";
                   Enum.comment := L "Styles."; Enum.values := [] |})
          (set_state InEnum
             (set_comment (L "Styles." ++ [nl])
                          (set_state InFieldComment initial)))).
Proof.
  apply (enum_header
           (set_comment (L "Styles." ++ [nl])
                        (set_state InFieldComment initial))
           (L "  ") (L " ") (L "BracketAlignmentStyle") (L " ")
           (":"%char :: L " " ++ L "int8_t" ++ L " ") []);
    try reflexivity; try discriminate.
  right. exists (L " "), (L "int8_t"), (L " ").
  repeat split; try reflexivity. discriminate.
Defined.

(** ** Field lines *)

Lemma field_later {A} N rest g (k : cont (A := A)) :
  forallb isword N = true ->
  forall j,
    forallb type_char (firstn j (N ++ ";"%char :: rest)) = true ->
    run (Plus isspace) (skipn j (N ++ ";"%char :: rest)) g k = None.
Proof.
  induction N as [|c N IH]; intros HN j Hj.
  - destruct j; [reflexivity|]. cbn in Hj. discriminate.
  - cbn [forallb] in HN. apply andb_true_iff in HN as [Hc HN].
    destruct j as [|j].
    + unfold Plus. cbn [skipn app run].
      rewrite (word_not_space _ Hc). reflexivity.
    + cbn [app firstn forallb] in Hj. apply andb_true_iff in Hj as [_ Hj].
      apply (IH HN j Hj).
Qed.

(** The type is all that stands before the last white-space character
    in front of the name. *)
Lemma field_match T ws w N rest :
  T <> [] -> forallb type_char T = true ->
  forallb isspace ws = true -> isspace w = true ->
  N <> [] -> forallb isword N = true ->
  exists g,
    match_here field_pattern false (T ++ ws ++ w :: N ++ ";"%char :: rest)
    = Some (rest, g)
    /\ g 1 = Some (T ++ ws)
    /\ g 2 = Some N.
Proof.
  intros HT HT' Hws Hw HN HN'.
  exists (set_group 2 N (set_group 1 (T ++ ws) no_groups)).
  split; [|split; reflexivity].
  assert (forallb type_char (T ++ ws) = true) as Hx.
  { rewrite forallb_app, HT'. cbn [andb].
    apply forallb_forall. intros c Hc.
    rewrite forallb_forall in Hws. unfold type_char.
    rewrite (Hws c Hc). apply orb_true_r. }
  unfold match_here, field_pattern, Cat. cbn [fold_right run].
  rewrite app_assoc.
  destruct (T ++ ws) as [|x X] eqn:EX.
  { apply app_eq_nil in EX as [-> _]. contradiction. }
  cbn [forallb] in Hx. apply andb_true_iff in Hx as [Hx0 HX].
  unfold Plus at 1. cbn [app run].
  change (one_of "<>:(,)" x || isword x || isspace x) with (type_char x).
  rewrite Hx0.
  apply (star_greedy_split (fun c => one_of "<>:(,)" c || isword c
                                     || isspace c) X
                           (w :: N ++ ";"%char :: rest)).
  - exact HX.
  - change (x :: X ++ w :: N ++ ";"%char :: rest)
      with ((x :: X) ++ w :: N ++ ";"%char :: rest).
    rewrite firstn_matched.
    apply (run_plus_stop isspace [w] (N ++ ";"%char :: rest)).
    + discriminate.
    + cbn [forallb]. rewrite Hw. reflexivity.
    + left. destruct N as [|c N]; [contradiction|].
      cbn [forallb] in HN'. apply andb_true_iff in HN' as [Hc _].
      apply (stop_at_word c N _ Hc).
    + cbn beta. apply run_plus_stop; [exact HN | exact HN' | |].
      * left. reflexivity.
      * cbn beta. rewrite firstn_matched. reflexivity.
  - intros j Hj _ Hf. destruct j as [|j]; [lia|].
    cbn [firstn forallb] in Hf. apply andb_true_iff in Hf as [_ Hf].
    cbn [skipn]. apply (field_later N rest _ _ HN' j Hf).
Qed.

Lemma endswith_app p x : endswith p (x ++ p) = true.
Proof. unfold endswith. rewrite rev_app_distr. apply startswith_app. Qed.

Lemma type_char_not_slash T x :
  T <> [] -> forallb type_char T = true ->
  startswith (L "//") (T ++ x) = false
  /\ startswith (L "///") (T ++ x) = false.
Proof.
  intros HT H. destruct T as [|c T]; [contradiction|].
  cbn [forallb] in H. apply andb_true_iff in H as [Hc _].
  assert (is_char "/" c = false) as Hs.
  { destruct (is_char "/" c) eqn:E; [|reflexivity].
    apply is_char_true in E. subst c. discriminate Hc. }
  cbn [L list_ascii_of_string app startswith]. rewrite Hs. auto.
Qed.

(** X8.  In state [InFieldComment] a line [T N;] that does not begin
    like a block appends the option named [N] with the accumulated
    comment, stripped, and goes back to [InStruct].  Of the white space
    between type and name only the last character separates: what stands
    before it stays at the end of the type. *)
Theorem field_line (v : vars) (lead T ws N trail : str) (w : ascii) :
  state v = InFieldComment ->
  forallb isspace lead = true -> forallb isspace trail = true ->
  T <> [] -> forallb type_char T = true ->
  isspace (hd " "%char T) = false ->
  startswith (L "enum") (T ++ ws ++ w :: N ++ L ";") = false ->
  startswith (L "struct") (T ++ ws ++ w :: N ++ L ";") = false ->
  forallb isspace ws = true -> isspace w = true ->
  N <> [] -> forallb isword N = true ->
  body v (lead ++ (T ++ ws ++ w :: N ++ L ";") ++ trail)
  = Ok (Continue,
        set_options
          (options v
             ++ [{| Option.name := N; Option.type := T ++ ws;
                    Option.comment := strip (comment v);
                    Option.enum := None; Option.nested_struct := None |}])
          (set_state InStruct v)).
Proof.
  intros Hst Hlead Htrail HT HT' Hhd Henum Hstruct Hws Hw HN HN'.
  unfold body. rewrite Hst, (strip_core _ _ _ Hlead Htrail).
  2:{ destruct T; [contradiction | exact Hhd]. }
  2:{ replace (T ++ ws ++ w :: N ++ L ";")
        with ((T ++ ws ++ w :: N) ++ [";"%char])
        by (repeat (rewrite <- app_assoc; cbn [app]); reflexivity).
      rewrite last_last. reflexivity. }
  destruct (type_char_not_slash T (ws ++ w :: N ++ L ";") HT HT')
    as [Hslash2 Hslash3].
  rewrite Hslash3, Hslash2, Henum, Hstruct.
  cbn [andb].
  replace (endswith (L ";") (T ++ ws ++ w :: N ++ L ";")) with true.
  2:{ replace (T ++ ws ++ w :: N ++ L ";")
        with ((T ++ ws ++ w :: N) ++ L ";")
        by (repeat (rewrite <- app_assoc; cbn [app]); reflexivity).
      symmetry. apply endswith_app. }
  destruct (field_match T ws w N [] HT HT' Hws Hw HN HN')
    as (g & Hm & Hg1 & Hg2).
  unfold re_match. change (L ";") with [";"%char]. rewrite Hm, Hg1, Hg2.
  reflexivity.
Qed.

Lemma field_line_witness :
  body (set_comment (L " The width. " ++ [nl])
                    (set_state InFieldComment initial))
       (L "  " ++ (L "unsigned" ++ L " " ++ " "%char :: L "ColumnLimit"
                     ++ L ";") ++ [])
  = Ok (Continue,
        set_options
          ([] ++ [{| Option.name := L "ColumnLimit";
                     Option.type := L "unsigned" ++ L " ";
                     Option.comment := L "The width.";
                     Option.enum := None; Option.nested_struct := None |}])
          (set_state InStruct
             (set_comment (L " The width. " ++ [nl])
                          (set_state InFieldComment initial)))).
Proof.
  apply (field_line
           (set_comment (L " The width. " ++ [nl])
                        (set_state InFieldComment initial))
           (L "  ") (L "unsigned") (L " ") (L "ColumnLimit") [] " "%char);
    try reflexivity; discriminate.
Defined.

(* ===================================================================== *)
(** * Further properties of [indent] *)
(* ===================================================================== *)

(** The pattern of [indent] matches a line break and the character
    behind it, unless that is a line break too. *)
Lemma line_start_match s :
  match_here line_start_pattern false s
  = match s with
    | a :: c :: t =>
        if is_char nl a && negb (is_char nl c)
        then Some (t, set_group 1 [c] no_groups) else None
    | _ => None
    end.
Proof.
  unfold match_here, line_start_pattern, Cat. cbn [fold_right run].
  destruct s as [|a [|c t]]; [reflexivity | |].
  - destruct (is_char nl a); reflexivity.
  - destruct (is_char nl a); [|reflexivity].
    destruct (is_char nl c); [reflexivity|]. cbn [andb negb length].
    replace (S (length t) - length t) with 1 by lia. reflexivity.
Qed.

Lemma line_start_sub_line columns l X :
  single_line l = true ->
  re_sub line_start_pattern [Text (nl :: spaces columns); Ref 1] (l ++ X)
  = l ++ re_sub line_start_pattern [Text (nl :: spaces columns); Ref 1] X.
Proof.
  intros Hl. unfold re_sub. apply sub_skip_prefix; [reflexivity|].
  intros j Hj. rewrite line_start_match.
  destruct (skipn j (l ++ X)) as [|a [|c t]] eqn:E; try reflexivity.
  assert (is_char nl a = false) as ->; [|reflexivity].
  unfold single_line in Hl. apply negb_true_iff in Hl.
  destruct (is_char nl a) eqn:Ha; [|reflexivity].
  rewrite <- Hl. symmetry. apply existsb_exists. exists a. split; [|exact Ha].
  assert (nth_error (l ++ X) j = Some a) as Hn.
  { rewrite <- (firstn_skipn j (l ++ X)), E.
    rewrite nth_error_app2 by (rewrite length_firstn; lia).
    rewrite length_firstn, length_app.
    replace (j - Nat.min j (length l + length X)) with 0 by lia.
    reflexivity. }
  rewrite nth_error_app1 in Hn by exact Hj.
  apply (nth_error_In _ _ Hn).
Qed.

(** One step of the substitution of [indent]. *)
Lemma line_start_indent columns c t :
  is_char nl c = false ->
  re_sub line_start_pattern [Text (nl :: spaces columns); Ref 1]
         (nl :: c :: t)
  = nl :: spaces columns ++ c
       :: re_sub line_start_pattern [Text (nl :: spaces columns); Ref 1] t.
Proof.
  intros Hc. unfold re_sub. rewrite sub_from_unfold by reflexivity.
  rewrite line_start_match, is_char_refl, Hc.
  cbn [andb negb expand flat_map set_group Nat.eqb app].
  rewrite <- app_assoc. reflexivity.
Qed.

Lemma line_start_keep columns t :
  hd nl t = nl ->
  re_sub line_start_pattern [Text (nl :: spaces columns); Ref 1] (nl :: t)
  = nl :: re_sub line_start_pattern [Text (nl :: spaces columns); Ref 1] t.
Proof.
  intros Ht. unfold re_sub. rewrite sub_from_unfold by reflexivity.
  rewrite line_start_match. destruct t as [|c t]; [reflexivity|].
  cbn [hd] in Ht. subst c. rewrite is_char_refl. reflexivity.
Qed.

Lemma single_line_cons c l :
  single_line (c :: l) = true -> is_char nl c = false /\ single_line l = true.
Proof.
  unfold single_line. cbn [existsb]. intros H.
  apply negb_true_iff, orb_false_iff in H as [Hc Hl].
  rewrite Hl. auto.
Qed.

Lemma line_start_sub_rest columns ls :
  forall l,
    forallb single_line (l :: ls) = true ->
    re_sub line_start_pattern [Text (nl :: spaces columns); Ref 1]
           (nl :: join [nl] (l :: ls))
    = nl :: join [nl] (map (indent_line columns) (l :: ls)).
Proof.
  induction ls as [|l2 ls IH]; intros l H;
    cbn [forallb] in H; apply andb_true_iff in H as [Hl Hls].
  - destruct l as [|c l].
    + reflexivity.
    + destruct (single_line_cons _ _ Hl) as [Hc Hl'].
      cbn [join map indent_line].
      rewrite (line_start_indent _ _ _ Hc).
      pose proof (line_start_sub_line columns l [] Hl') as Hs.
      rewrite app_nil_r in Hs. rewrite Hs, app_nil_r. reflexivity.
  - specialize (IH l2 Hls).
    change (join [nl] (l :: l2 :: ls))
      with (l ++ nl :: join [nl] (l2 :: ls)).
    change (join [nl] (map (indent_line columns) (l :: l2 :: ls)))
      with (indent_line columns l
              ++ nl :: join [nl] (map (indent_line columns) (l2 :: ls))).
    destruct l as [|c l].
    + cbn [app indent_line]. rewrite line_start_keep by reflexivity.
      rewrite IH. reflexivity.
    + destruct (single_line_cons _ _ Hl) as [Hc Hl'].
      cbn [app indent_line].
      rewrite (line_start_indent _ _ _ Hc).
      rewrite (line_start_sub_line columns l _ Hl'), IH.
      rewrite <- app_assoc. reflexivity.
Qed.

(** What the substitution of [indent] does to a text given by its
    lines: every line behind the first gets the indentation, unless it is
    empty. *)
Lemma line_start_sub columns l ls :
  forallb single_line (l :: ls) = true ->
  re_sub line_start_pattern [Text (nl :: spaces columns); Ref 1]
         (join [nl] (l :: ls))
  = join [nl] (l :: map (indent_line columns) ls).
Proof.
  intros H. pose proof H as H'.
  cbn [forallb] in H'. apply andb_true_iff in H' as [Hl Hls].
  destruct ls as [|l2 ls].
  - cbn [join map].
    pose proof (line_start_sub_line columns l [] Hl) as Hs.
    rewrite app_nil_r in Hs. rewrite Hs. apply app_nil_r.
  - change (join [nl] (l :: l2 :: ls))
      with (l ++ nl :: join [nl] (l2 :: ls)).
    rewrite (line_start_sub_line columns l _ Hl).
    rewrite (line_start_sub_rest columns ls l2 Hls). reflexivity.
Qed.

Lemma join_prefix sep a x ys :
  join sep ((a ++ x) :: ys) = a ++ join sep (x :: ys).
Proof.
  destruct ys as [|y ys]; [reflexivity|].
  cbn [join]. rewrite <- app_assoc. reflexivity.
Qed.

Lemma indent_rest (columns : Z) (l : str) (ls : list str) :
  forallb single_line (l :: ls) = true ->
  indent (join [nl] (l :: ls)) columns false
  = join [nl] (l :: map (indent_line columns) ls).
Proof.
  intros H. unfold indent.
  change ([nl] ++ spaces columns) with (nl :: spaces columns).
  rewrite (line_start_sub columns l ls H). reflexivity.
Qed.

Lemma indent_first (columns : Z) (l : str) (ls : list str) :
  forallb single_line (l :: ls) = true ->
  join [nl] (l :: ls) <> [] ->
  indent (join [nl] (l :: ls)) columns true
  = join [nl] (map (indent_line columns) (l :: ls)).
Proof.
  intros H Hne. unfold indent.
  change ([nl] ++ spaces columns) with (nl :: spaces columns).
  rewrite (line_start_sub columns l ls H). cbn [negb orb].
  cbn [forallb] in H. apply andb_true_iff in H as [Hl _].
  destruct l as [|c l].
  - destruct ls as [|l2 ls]; [contradiction|]. reflexivity.
  - destruct (single_line_cons _ _ Hl) as [Hc _].
    match goal with
    | |- context [startswith ?a ?b] =>
        assert (startswith a b = false) as Hsw
    end.
    { destruct (map (indent_line columns) ls); cbn [join app startswith];
        rewrite Hc; reflexivity. }
    rewrite Hsw. cbn [map indent_line]. symmetry. apply join_prefix.
Qed.

(** X9.  [indent] works line by line.  Every line behind the first gets
    [columns] spaces in front, unless it is empty; so does the first line
    when [indent_first_line] is true and the text is not empty. *)
Theorem indent_lines (columns : Z) (l : str) (ls : list str) :
  forallb single_line (l :: ls) = true ->
  indent (join [nl] (l :: ls)) columns false
  = join [nl] (l :: map (indent_line columns) ls)
  /\ (join [nl] (l :: ls) <> [] ->
      indent (join [nl] (l :: ls)) columns true
      = join [nl] (map (indent_line columns) (l :: ls))).
Proof.
  intros H. split.
  - apply (indent_rest columns l ls H).
  - intros Hne. apply (indent_first columns l ls H Hne).
Qed.

Lemma indent_lines_witness :
  indent (join [nl] [L "a"; []; L "b"; []]) 2 false
  = join [nl] [L "a"; []; L "  b"; []]
  /\ indent (join [nl] [L "a"; []; L "b"; []]) 2 true
     = join [nl] [L "  a"; []; L "  b"; []].
Proof.
  split.
  - apply (proj1 (indent_lines 2 (L "a") [[]; L "b"; []] eq_refl)).
  - apply (proj2 (indent_lines 2 (L "a") [[]; L "b"; []] eq_refl)).
    discriminate.
Defined.

(** Every text is its lines joined by line breaks. *)
Lemma text_lines text :
  exists l ls,
    forallb single_line (l :: ls) = true /\ text = join [nl] (l :: ls).
Proof.
  induction text as [|c text (l & ls & H & ->)].
  - exists [], []. split; reflexivity.
  - destruct (is_char nl c) eqn:Hc.
    + apply is_char_true in Hc. subst c.
      exists [], (l :: ls). split; [exact H | reflexivity].
    + exists (c :: l), ls. split.
      * cbn [forallb] in *. apply andb_true_iff in H as [Hl Hls].
        rewrite Hls, andb_true_r. unfold single_line in *.
        cbn [existsb]. rewrite Hc. exact Hl.
      * symmetry. apply (join_prefix [nl] [c] l ls).
Qed.

Lemma indent_line_flat columns l :
  (columns <= 0)%Z -> indent_line columns l = l.
Proof.
  intros H. destruct l; [reflexivity|]. unfold indent_line, spaces.
  replace (Z.to_nat columns) with 0 by lia. reflexivity.
Qed.

(** X10.  With a width that is not positive [indent] returns every text
    as it is. *)
Theorem indent_flat (text : str) (columns : Z) (indent_first_line : bool) :
  (columns <= 0)%Z ->
  indent text columns indent_first_line = text.
Proof.
  intros H. destruct (text_lines text) as (l & ls & Hlines & ->).
  assert (map (indent_line columns) ls = ls) as Hls.
  { clear Hlines. induction ls as [|x ls IH]; [reflexivity|].
    cbn [map]. rewrite IH, (indent_line_flat _ _ H). reflexivity. }
  pose proof (indent_rest columns l ls Hlines) as Hfalse.
  pose proof (indent_first columns l ls Hlines) as Htrue.
  destruct indent_first_line.
  - destruct (join [nl] (l :: ls)) eqn:E.
    + unfold indent, spaces. replace (Z.to_nat columns) with 0 by lia.
      reflexivity.
    + rewrite <- E in *. rewrite Htrue by (rewrite E; discriminate).
      cbn [map]. rewrite Hls, (indent_line_flat _ _ H). reflexivity.
  - rewrite Hfalse, Hls. reflexivity.
Qed.

Lemma indent_flat_witness :
  indent (L "a" ++ [nl] ++ L "b") (-3) true = L "a" ++ [nl] ++ L "b".
Proof.
  apply (indent_flat (L "a" ++ [nl] ++ L "b") (-3) true). lia.
Defined.

(* ===================================================================== *)
(** * Further properties of [substitute] *)
(* ===================================================================== *)

(** X11.  The old body of the region leaves no trace: after a first
    substitution, whatever its body was, a second one returns what it
    would have returned on the original document. *)
Theorem substitute_overwrites
        (tag first second pre mid post : str) :
  plain_tag tag = true ->
  find (start_marker tag)
       (pre ++ start_marker tag ++ mid ++ end_marker tag ++ post)
  = Some (length pre) ->
  rfind (end_marker tag)
        (pre ++ start_marker tag ++ mid ++ end_marker tag ++ post)
  = Some (length (pre ++ start_marker tag ++ mid)) ->
  existsb (is_char percent) pre = false ->
  existsb (is_char percent) post = false ->
  exists once,
    substitute (pre ++ start_marker tag ++ mid ++ end_marker tag ++ post)
               tag first = Ok once
    /\ substitute once tag second
       = substitute (pre ++ start_marker tag ++ mid ++ end_marker tag ++ post)
                    tag second
    /\ raises (substitute once tag second) = false.
Proof.
  intros _ Hfind Hrfind Hpre Hpost.
  pose proof (first_marker_local _ _ _ Hfind) as Hfirst.
  assert (forall j, 0 < j ->
                    startswith (end_marker tag)
                               (skipn j (end_marker tag ++ post)) = false)
    as Hlast.
  { apply (last_marker_local _ (pre ++ start_marker tag ++ mid) post
                             (end_marker_not_nil tag)).
    repeat rewrite <- app_assoc. exact Hrfind. }
  exists (pre ++ start_marker tag ++ ([nl] ++ first ++ [nl])
              ++ end_marker tag ++ post).
  split; [apply substitute_region; assumption|].
  rewrite (substitute_region tag second pre ([nl] ++ first ++ [nl]) post
                             Hfirst Hlast Hpre Hpost).
  rewrite (substitute_region tag second pre mid post
                             Hfirst Hlast Hpre Hpost).
  split; reflexivity.
Qed.

Lemma substitute_overwrites_witness :
  exists once,
    substitute (L "Intro." ++ start_marker (L "X") ++ L "old"
                  ++ end_marker (L "X") ++ L "Outro.")
               (L "X") (L "100% first") = Ok once
    /\ substitute once (L "X") (L "second")
       = substitute (L "Intro." ++ start_marker (L "X") ++ L "old"
                       ++ end_marker (L "X") ++ L "Outro.")
                    (L "X") (L "second")
    /\ raises (substitute once (L "X") (L "second")) = false.
Proof.
  apply (substitute_overwrites (L "X") (L "100% first") (L "second")
                               (L "Intro.") (L "old") (L "Outro."));
    reflexivity.
Defined.

Lemma startswith_in_range p s n :
  p <> [] -> startswith p (skipn n s) = true -> n < length s.
Proof.
  intros Hp H. destruct (le_lt_dec (length s) n) as [Hle|Hlt]; [|exact Hlt].
  rewrite skipn_all2 in H by exact Hle.
  rewrite (startswith_nil_false _ Hp) in H. discriminate.
Qed.

(** A text with a region, cut at the first begin marker and at the last
    end marker. *)
Lemma region_split tag text :
  has_region tag text = true ->
  exists pre mid post,
    text = pre ++ start_marker tag ++ mid ++ end_marker tag ++ post
    /\ find (start_marker tag) text = Some (length pre)
    /\ rfind (end_marker tag) text
       = Some (length (pre ++ start_marker tag ++ mid)).
Proof.
  unfold has_region.
  destruct (find (start_marker tag) text) as [i|] eqn:Hf; [|discriminate].
  destruct (rfind (end_marker tag) text) as [n|] eqn:Hr; [|discriminate].
  intros Hle. apply Nat.leb_le in Hle.
  destruct (find_some _ _ _ Hf) as [Hs _].
  destruct (rfind_some _ _ (end_marker_not_nil tag) _ Hr) as [He _].
  pose proof (startswith_in_range _ _ _ (start_marker_not_nil tag) Hs) as Hi.
  pose proof (startswith_in_range _ _ _ (end_marker_not_nil tag) He) as Hn.
  apply startswith_true in Hs as [t1 Ht1].
  apply startswith_true in He as [post Hpost].
  assert (skipn (n - i - length (start_marker tag)) t1
          = end_marker tag ++ post) as Hmid.
  { rewrite <- Hpost.
    replace n with (i + (length (start_marker tag)
                         + (n - i - length (start_marker tag)))) at 2 by lia.
    rewrite <- skipn_skipn_plus, Ht1, skipn_app_plus. reflexivity. }
  assert (n - i - length (start_marker tag) <= length t1) as Hk.
  { assert (length (skipn i text) = length text - i) as Hlen
        by apply length_skipn.
    rewrite Ht1, length_app in Hlen. lia. }
  exists (firstn i text),
    (firstn (n - i - length (start_marker tag)) t1), post.
  assert (length (firstn i text) = i) as Hpre
      by (rewrite length_firstn; lia).
  split; [|split].
  - rewrite <- Hmid, firstn_skipn, <- Ht1. symmetry. apply firstn_skipn.
  - rewrite Hpre. reflexivity.
  - repeat rewrite length_app. rewrite Hpre, length_firstn.
    f_equal. lia.
Qed.

(** X12.  On a document without [%] the call returns when the document
    has a region for the tag, and raises when it has none. *)
Theorem substitute_returns_iff_region (text tag contents : str) :
  plain_tag tag = true ->
  existsb (is_char percent) text = false ->
  raises (substitute text tag contents) = negb (has_region tag text).
Proof.
  intros Htag Hpercent. destruct (has_region tag text) eqn:Hregion.
  - destruct (region_split _ _ Hregion)
      as (pre & mid & post & Htext & Hfind & Hrfind).
    rewrite Htext in Hpercent, Hfind, Hrfind |- *.
    repeat rewrite existsb_app in Hpercent.
    repeat (apply orb_false_iff in Hpercent as [? Hpercent]).
    rewrite substitute_region; [reflexivity| | |assumption|assumption].
    + apply (first_marker_local _ _ _ Hfind).
    + apply (last_marker_local _ (pre ++ start_marker tag ++ mid) post
                               (end_marker_not_nil tag)).
      repeat rewrite <- app_assoc. exact Hrfind.
  - unfold substitute, re_sub.
    rewrite sub_none;
      [|apply region_pattern_not_nullable
       |apply no_region_no_match, Hregion].
    rewrite (format_none _ _ Hpercent). reflexivity.
Qed.

Lemma substitute_returns_iff_region_witness :
  raises (substitute (L "Intro." ++ start_marker (L "X") ++ end_marker (L "X"))
                     (L "X") (L "new"))
  = negb (has_region (L "X")
                     (L "Intro." ++ start_marker (L "X") ++ end_marker (L "X"))).
Proof.
  apply (substitute_returns_iff_region
           (L "Intro." ++ start_marker (L "X") ++ end_marker (L "X"))
           (L "X") (L "new")); reflexivity.
Defined.



(* ===================================================================== *)
(** * Further properties of [clean_comment_line] and [doxygen2rst] *)
(* ===================================================================== *)

(** X14.  A documentation line that does not begin like a code marker
    loses its first four characters, whatever they are, and gains a line
    break. *)
Theorem clean_comment_line_plain (line : str) :
  startswith (L "/// \code") line = false ->
  eqs line (L "/// \endcode") = false ->
  clean_comment_line line = skipn 4 line ++ [nl].
Proof.
  intros Hcode Hend. unfold clean_comment_line, re_match, match_here.
  unfold code_pattern, Cat. cbn [fold_right run].
  rewrite run_Lit, Hcode, Hend. reflexivity.
Qed.

Lemma clean_comment_line_plain_witness :
  clean_comment_line (L "/// Some text.") = L "Some text." ++ [nl]
  /\ clean_comment_line (L "///x") = [nl].
Proof.
  split.
  - apply (clean_comment_line_plain (L "/// Some text.")); reflexivity.
  - apply (clean_comment_line_plain (L "///x")); reflexivity.
Defined.

(** X15.  The line that opens a code block becomes the [code-block]
    directive, with the language [c++] when the line names none, and with
    the language named in braces otherwise; the character in front of the
    language can be any but a line break. *)
Theorem clean_comment_line_code (c : ascii) (lang : str) :
  dot c = true ->
  lang <> [] -> forallb isword lang = true ->
  clean_comment_line (L "/// \code")
  = [nl] ++ L ".. code-block:: c++" ++ [nl; nl]
  /\ clean_comment_line (L "/// \code{" ++ c :: lang ++ L "}")
     = [nl] ++ L ".. code-block:: " ++ lang ++ [nl; nl].
Proof.
  intros Hc Hlang Hword. split; [reflexivity|].
  unfold clean_comment_line, re_match.
  assert (exists g,
             match_here code_pattern false
                        (L "/// \code{" ++ c :: lang ++ L "}")
             = Some ([], g) /\ g 2 = Some lang) as (g & -> & ->).
  { eexists. split.
    - unfold match_here, code_pattern, Cat. cbn [fold_right run].
      rewrite run_Lit.
      replace (startswith (L "/// \code")
                          (L "/// \code{" ++ c :: lang ++ L "}"))
        with true by reflexivity.
      cbn [L list_ascii_of_string length skipn app].
      replace (is_char "{" "{") with true by reflexivity.
      rewrite Hc. apply orelse_first.
      apply run_plus_stop; [exact Hlang | exact Hword | left; reflexivity|].
      cbn beta. reflexivity.
    - cbn [set_group Nat.eqb]. rewrite firstn_matched. reflexivity. }
  destruct lang; [contradiction | reflexivity].
Qed.

Lemma clean_comment_line_code_witness :
  clean_comment_line (L "/// \code")
  = [nl] ++ L ".. code-block:: c++" ++ [nl; nl]
  /\ clean_comment_line (L "/// \code{" ++ "."%char :: L "java" ++ L "}")
     = [nl] ++ L ".. code-block:: " ++ L "java" ++ [nl; nl].
Proof.
  apply (clean_comment_line_code "." (L "java")); try reflexivity.
  discriminate.
Defined.

Lemma sub_skip_heads r t pre rest :
  nullable r = false ->
  (forall x tail, In x pre -> match_here r false (x :: tail) = None) ->
  re_sub r t (pre ++ rest) = pre ++ re_sub r t rest.
Proof.
  intros Hn. unfold re_sub. induction pre as [|x pre IH]; intros H.
  - reflexivity.
  - cbn [app]. rewrite sub_from_unfold by exact Hn.
    rewrite (H x (pre ++ rest) (or_introl eq_refl)).
    rewrite IH; [reflexivity|].
    intros y tail Hy. apply (H y tail (or_intror Hy)).
Qed.

Lemma no_char_in a s x :
  existsb (is_char a) s = false -> In x s -> is_char a x = false.
Proof.
  intros H Hx. destruct (is_char a x) eqn:E; [|reflexivity].
  rewrite <- H. symmetry. apply existsb_exists. exists x. auto.
Qed.

Lemma sub_skip_first_char a r t pre rest :
  existsb (is_char a) pre = false ->
  re_sub (Seq (Chr a) r) t (pre ++ rest)
  = pre ++ re_sub (Seq (Chr a) r) t rest.
Proof.
  intros H. apply sub_skip_heads; [reflexivity|].
  intros x tail Hx. unfold match_here. cbn [run].
  rewrite (no_char_in _ _ _ H Hx). reflexivity.
Qed.

Lemma no_lt_no_tt s :
  existsb (is_char "<") s = false -> find (L "<tt>") s = None.
Proof.
  induction s as [|c s IH]; [reflexivity|].
  cbn [existsb]. intros H. apply orb_false_iff in H as [Hc Hs].
  cbn [find].
  assert (startswith (L "<tt>") (c :: s) = false) as ->
      by (cbn [L list_ascii_of_string startswith]; rewrite Hc; reflexivity).
  rewrite (IH Hs). reflexivity.
Qed.

Lemma word_no_bslash w :
  forallb isword w = true -> existsb (is_char bslash) w = false.
Proof.
  induction w as [|c w IH]; [reflexivity|].
  cbn [forallb existsb]. intros H. apply andb_true_iff in H as [Hc Hw].
  rewrite (IH Hw), orb_false_r.
  destruct (is_char bslash c) eqn:E; [|reflexivity].
  apply is_char_true in E. subst c. discriminate Hc.
Qed.

(** X16.  [\c token] becomes the token between double backquotes.  The
    token runs up to the next space, comma, semicolon or period, or to the
    end of the text: a line break does not end it. *)
Theorem doxygen2rst_c_command (pre token post : str) :
  contains (L "<tt>") (pre ++ bslash :: L "c " ++ token ++ post) = false ->
  existsb (is_char bslash) pre = false ->
  existsb (is_char bslash) token = false ->
  existsb (is_char bslash) post = false ->
  token <> [] ->
  forallb (fun c => negb (one_of " ,;." c)) token = true ->
  one_of " ,;." (hd " "%char post) = true ->
  doxygen2rst (pre ++ bslash :: L "c " ++ token ++ post)
  = pre ++ L "``" ++ token ++ L "``" ++ post.
Proof.
  intros Htt Hpre Htoken Hpost Hne Hchars Hstop. unfold doxygen2rst.
  assert (re_sub tt_pattern code_span
                 (pre ++ bslash :: L "c " ++ token ++ post)
          = pre ++ bslash :: L "c " ++ token ++ post) as ->.
  { apply (sub_without_literal (L "<tt>")); [discriminate|].
    unfold contains in Htt.
    destruct (find (L "<tt>") _); [discriminate | reflexivity]. }
  assert (re_sub c_pattern code_span
                 (pre ++ bslash :: L "c " ++ token ++ post)
          = pre ++ L "``" ++ token ++ L "``" ++ post) as ->.
  { unfold c_pattern, Cat. cbn [fold_right].
    rewrite (sub_skip_first_char _ _ _ _ _ Hpre). f_equal.
    unfold re_sub. rewrite sub_from_unfold by reflexivity.
    assert (match_here
              (Seq (Chr bslash)
                 (Seq (Chr "c")
                    (Seq (Chr " ")
                       (Seq (Grp 1 (Plus (fun c => negb (one_of " ,;." c))))
                            Eps))))
              false (bslash :: L "c " ++ token ++ post)
            = Some (post, set_group 1 token no_groups)) as ->.
    { unfold match_here. cbn [run L list_ascii_of_string app].
      rewrite is_char_refl.
      replace (is_char "c" "c") with true by reflexivity.
      replace (is_char " " " ") with true by reflexivity.
      apply run_plus_stop; [exact Hne | exact Hchars | |].
      - destruct post as [|p post]; [right; reflexivity | left].
        cbn [hd] in *. rewrite Hstop. reflexivity.
      - cbn beta. rewrite firstn_matched. reflexivity. }
    cbn [code_span expand flat_map set_group Nat.eqb].
    pose proof (sub_without_first_char bslash
                  (Seq (Chr "c")
                     (Seq (Chr " ")
                        (Seq (Grp 1 (Plus (fun c => negb (one_of " ,;." c))))
                             Eps)))
                  code_span post Hpost) as Hrest.
    unfold re_sub in Hrest. rewrite Hrest.
    rewrite app_nil_r. repeat rewrite <- app_assoc. reflexivity. }
  apply (sub_without_first_char bslash).
  repeat rewrite existsb_app. rewrite Hpre, Htoken, Hpost. reflexivity.
Qed.

Lemma doxygen2rst_c_command_witness :
  doxygen2rst (L "See " ++ bslash :: L "c " ++ L "Foo::bar" ++ L ", please.")
  = L "See " ++ L "``" ++ L "Foo::bar" ++ L "``" ++ L ", please.".
Proof.
  apply (doxygen2rst_c_command (L "See ") (L "Foo::bar") (L ", please."));
    try reflexivity.
  discriminate.
Defined.

(** X17.  Any other backslash command is deleted together with the one
    space behind it. *)
Theorem doxygen2rst_other_command (pre word post : str) :
  contains (L "<tt>") (pre ++ bslash :: word ++ " "%char :: post) = false ->
  existsb (is_char bslash) pre = false ->
  existsb (is_char bslash) post = false ->
  word <> [] -> forallb isword word = true ->
  eqs word (L "c") = false ->
  doxygen2rst (pre ++ bslash :: word ++ " "%char :: post) = pre ++ post.
Proof.
  intros Htt Hpre Hpost Hne Hword Hc. unfold doxygen2rst.
  pose proof (word_no_bslash _ Hword) as Hwb.
  assert (re_sub tt_pattern code_span
                 (pre ++ bslash :: word ++ " "%char :: post)
          = pre ++ bslash :: word ++ " "%char :: post) as ->.
  { apply (sub_without_literal (L "<tt>")); [discriminate|].
    unfold contains in Htt.
    destruct (find (L "<tt>") _); [discriminate | reflexivity]. }
  assert (re_sub c_pattern code_span
                 (pre ++ bslash :: word ++ " "%char :: post)
          = pre ++ bslash :: word ++ " "%char :: post) as ->.
  { unfold c_pattern, Cat. cbn [fold_right].
    rewrite (sub_skip_first_char _ _ _ _ _ Hpre). f_equal.
    unfold re_sub. rewrite sub_from_unfold by reflexivity.
    assert (match_here
              (Seq (Chr bslash)
                 (Seq (Chr "c")
                    (Seq (Chr " ")
                       (Seq (Grp 1 (Plus (fun c => negb (one_of " ,;." c))))
                            Eps))))
              false (bslash :: word ++ " "%char :: post) = None) as ->.
    { unfold match_here. cbn [run]. rewrite is_char_refl.
      destruct word as [|a word]; [contradiction|].
      cbn [app]. destruct (is_char "c" a) eqn:Ha; [|reflexivity].
      apply is_char_true in Ha. subst a.
      destruct word as [|b word]; [discriminate Hc|].
      cbn [app]. destruct (is_char " " b) eqn:Hb; [|reflexivity].
      apply is_char_true in Hb. subst b. discriminate Hword. }
    f_equal.
    apply (sub_without_first_char bslash).
    rewrite existsb_app. cbn [existsb]. rewrite Hwb, Hpost. reflexivity. }
  unfold command_pattern, Cat. cbn [fold_right].
  rewrite (sub_skip_first_char _ _ _ _ _ Hpre). f_equal.
  unfold re_sub. rewrite sub_from_unfold by reflexivity.
  assert (match_here (Seq (Chr bslash) (Seq (Plus isword) (Seq (Chr " ") Eps)))
                     false (bslash :: word ++ " "%char :: post)
          = Some (post, no_groups)) as ->.
  { unfold match_here. cbn [run]. rewrite is_char_refl.
    apply run_plus_stop; [exact Hne | exact Hword | left; reflexivity|].
    reflexivity. }
  cbn [expand flat_map app].
  apply (sub_without_first_char bslash _ _ _ Hpost).
Qed.

Lemma doxygen2rst_other_command_witness :
  doxygen2rst (L "Use " ++ bslash :: L "brief" ++ " "%char :: L "short text.")
  = L "Use " ++ L "short text.".
Proof.
  apply (doxygen2rst_other_command (L "Use ") (L "brief") (L "short text."));
    try reflexivity.
  discriminate.
Defined.

(** ** The teletype tag *)

(** Lazy [p*?] hands over at the first index from which the rest of the
    pattern matches. *)
Lemma star_lazy_first {A} p a b g (k : cont (A := A)) r :
  forallb p a = true ->
  (forall j, j < length a -> k (skipn j (a ++ b)) g = None) ->
  k b g = Some r ->
  star_lazy p (a ++ b) g k = Some r.
Proof.
  intros Hp Hnone Hk. induction a as [|x a IH].
  - destruct b; cbn [app star_lazy]; rewrite Hk; reflexivity.
  - cbn [forallb] in Hp. apply andb_true_iff in Hp as [Hx Hp].
    cbn [app star_lazy].
    pose proof (Hnone 0 ltac:(simpl; lia)) as H0. cbn [skipn app] in H0.
    rewrite H0, Hx. cbn [orelse]. apply (IH Hp).
    intros j Hj. apply (Hnone (S j)). simpl. lia.
Qed.

Lemma single_line_dot s : single_line s = true -> forallb dot s = true.
Proof.
  induction s as [|c s IH]; [reflexivity|].
  intros H. destruct (single_line_cons _ _ H) as [Hc Hs].
  cbn [forallb]. unfold dot at 1. rewrite Hc, (IH Hs). reflexivity.
Qed.

Lemma list_last_app {A} (l1 l2 : list A) d :
  l2 <> [] -> List.last (l1 ++ l2) d = List.last l2 d.
Proof.
  intros H. induction l1 as [|x l1 IH]; [reflexivity|].
  cbn [app List.last]. destruct (l1 ++ l2) eqn:E; [|exact IH].
  apply app_eq_nil in E as [_ ->]. contradiction.
Qed.

(** Inside a text that ends in a character which is no white space, and
    that holds no [<], white space cannot lead up to a closing tag. *)
Lemma closing_tag_not_inside u :
  forall v i,
    u <> [] ->
    isspace (List.last u "x"%char) = false ->
    existsb (is_char "<") u = false ->
    forallb isspace (firstn i (u ++ v)) = true ->
    startswith (L "</tt>") (skipn i (u ++ v)) = false.
Proof.
  induction u as [|x u IH]; intros v i Hne Hlast Hlt Hsp; [contradiction|].
  cbn [existsb] in Hlt. apply orb_false_iff in Hlt as [Hx Hlt].
  destruct i as [|i].
  - cbn [skipn app L list_ascii_of_string startswith]. rewrite Hx. reflexivity.
  - cbn [app firstn forallb] in Hsp. apply andb_true_iff in Hsp as [Hxs Hsp].
    cbn [app skipn]. destruct u as [|y u].
    + cbn [List.last] in Hlast. rewrite Hlast in Hxs. discriminate.
    + apply IH; [discriminate | exact Hlast | exact Hlt | exact Hsp].
Qed.

Lemma tt_match ws1 body ws2 post :
  forallb isspace ws1 = true -> forallb isspace ws2 = true ->
  single_line body = true ->
  existsb (is_char "<") body = false ->
  isspace (hd "x"%char body) = false ->
  isspace (List.last body "x"%char) = false ->
  match_here tt_pattern false
             (L "<tt>" ++ ws1 ++ body ++ ws2 ++ L "</tt>" ++ post)
  = Some (post, set_group 1 body no_groups).
Proof.
  intros Hws1 Hws2 Hline Hlt Hhd Hlast.
  unfold match_here, tt_pattern, Cat. cbn [fold_right run].
  rewrite run_Lit, startswith_app, skipn_app_exact.
  assert (forall g,
             star_greedy isspace (ws2 ++ L "</tt>" ++ post) g
               (fun s' g' =>
                  run (Lit (L "</tt>")) s' g'
                      (fun s'' g'' =>
                         if false && (length s'' =?
                                      length (L "<tt>" ++ ws1 ++ body ++ ws2
                                                ++ L "</tt>" ++ post))
                         then None else Some (s'', g'')))
             = Some (post, g)) as Hclose.
  { intros g. apply star_greedy_stop; [exact Hws2 | left; reflexivity|].
    rewrite run_Lit, startswith_app, skipn_app_exact. reflexivity. }
  destruct body as [|c body].
  - cbn [app]. rewrite app_assoc.
    apply star_greedy_stop.
    + rewrite forallb_app, Hws1, Hws2. reflexivity.
    + left. reflexivity.
    + apply (star_lazy_first dot [] (L "</tt>" ++ post)).
      * reflexivity.
      * intros j Hj. simpl in Hj. lia.
      * cbn [app length]. rewrite Nat.sub_diag. cbn [firstn].
        pose proof (Hclose (set_group 1 [] no_groups)) as H.
        assert (star_greedy isspace (L "</tt>" ++ post)
                  (set_group 1 [] no_groups)
                  (fun s' g' =>
                     run (Lit (L "</tt>")) s' g'
                         (fun s'' g'' =>
                            if false && (length s'' =?
                                         length (L "<tt>" ++ ws1 ++ [] ++ ws2
                                                   ++ L "</tt>" ++ post))
                            then None else Some (s'', g'')))
                = Some (post, set_group 1 [] no_groups)) as H'.
        { apply (star_greedy_stop isspace [] (L "</tt>" ++ post));
            [reflexivity | left; reflexivity|].
          rewrite run_Lit, startswith_app, skipn_app_exact. reflexivity. }
        exact H'.
  - apply star_greedy_stop; [exact Hws1 | left; exact Hhd|].
    apply (star_lazy_first dot (c :: body) (ws2 ++ L "</tt>" ++ post)).
    + apply single_line_dot, Hline.
    + intros j Hj. apply star_greedy_fail. intros i _ Hsp.
      rewrite run_Lit.
      rewrite skipn_app in Hsp |- *.
      replace (j - length (c :: body)) with 0 in * by lia.
      cbn [skipn] in Hsp |- *.
      rewrite (closing_tag_not_inside (skipn j (c :: body))); [reflexivity| | | |].
      * intros E. apply (f_equal (@length ascii)) in E.
        rewrite length_skipn in E. cbn [length] in *. lia.
      * rewrite <- (firstn_skipn j (c :: body)) in Hlast.
        rewrite list_last_app in Hlast; [exact Hlast|].
        intros E. apply (f_equal (@length ascii)) in E.
        rewrite length_skipn in E. cbn [length] in *. lia.
      * destruct (existsb (is_char "<") (skipn j (c :: body))) eqn:E;
          [|reflexivity].
        apply existsb_exists in E as (x & Hx & Hc).
        rewrite <- Hlt. symmetry. apply existsb_exists. exists x.
        split; [|exact Hc].
        rewrite <- (firstn_skipn j (c :: body)). apply in_or_app. right.
        exact Hx.
      * exact Hsp.
    + rewrite firstn_matched. apply Hclose.
Qed.

Lemma tt_sub_clean s :
  existsb (is_char "<") s = false -> re_sub tt_pattern code_span s = s.
Proof.
  intros H. apply (sub_without_literal (L "<tt>")); [discriminate|].
  apply no_lt_no_tt, H.
Qed.

(** X18.  A teletype tag pair on one line becomes its content between
    double backquotes, without the white space that stood between the
    tags and the content. *)
Theorem doxygen2rst_teletype (pre ws1 body ws2 post : str) :
  existsb (is_char "<") pre = false ->
  existsb (is_char "<") body = false ->
  existsb (is_char "<") post = false ->
  existsb (is_char bslash) pre = false ->
  existsb (is_char bslash) body = false ->
  existsb (is_char bslash) post = false ->
  forallb isspace ws1 = true -> forallb isspace ws2 = true ->
  single_line body = true ->
  isspace (hd "x"%char body) = false ->
  isspace (List.last body "x"%char) = false ->
  doxygen2rst (pre ++ L "<tt>" ++ ws1 ++ body ++ ws2 ++ L "</tt>" ++ post)
  = pre ++ L "``" ++ body ++ L "``" ++ post.
Proof.
  intros Hpre Hbody Hpost Bpre Bbody Bpost Hws1 Hws2 Hline Hhd Hlast.
  unfold doxygen2rst.
  assert (re_sub tt_pattern code_span
                 (pre ++ L "<tt>" ++ ws1 ++ body ++ ws2 ++ L "</tt>" ++ post)
          = pre ++ L "``" ++ body ++ L "``" ++ post) as ->.
  { rewrite sub_skip_heads; [|reflexivity|].
    2:{ intros x tail Hx. unfold match_here, tt_pattern, Cat.
        cbn [fold_right run]. rewrite run_Lit.
        cbn [L list_ascii_of_string startswith].
        rewrite (no_char_in _ _ _ Hpre Hx). reflexivity. }
    f_equal. unfold re_sub. rewrite sub_from_unfold by reflexivity.
    rewrite (tt_match _ _ _ _ Hws1 Hws2 Hline Hbody Hhd Hlast).
    cbn [code_span expand flat_map set_group Nat.eqb].
    pose proof (tt_sub_clean post Hpost) as Hrest.
    unfold re_sub in Hrest.
    rewrite Hrest, app_nil_r. repeat rewrite <- app_assoc. reflexivity. }
  assert (existsb (is_char bslash) (pre ++ L "``" ++ body ++ L "``" ++ post)
          = false) as Hb.
  { repeat rewrite existsb_app. rewrite Bpre, Bbody, Bpost. reflexivity. }
  assert (re_sub c_pattern code_span
                 (pre ++ L "``" ++ body ++ L "``" ++ post)
          = pre ++ L "``" ++ body ++ L "``" ++ post) as ->.
  { apply (sub_without_first_char bslash), Hb. }
  apply (sub_without_first_char bslash), Hb.
Qed.

Lemma doxygen2rst_teletype_witness :
  doxygen2rst (L "Set " ++ L "<tt>" ++ L "  " ++ L "a b" ++ L " "
                 ++ L "</tt>" ++ L " now.")
  = L "Set " ++ L "``" ++ L "a b" ++ L "``" ++ L " now.".
Proof.
  apply (doxygen2rst_teletype (L "Set ") (L "  ") (L "a b") (L " ")
                              (L " now.")); reflexivity.
Defined.

(* ===================================================================== *)
(** * The registries of [read_options] *)
(* ===================================================================== *)

Lemma remove_char_clean c s : existsb (is_char c) (remove_char c s) = false.
Proof.
  unfold remove_char. induction s as [|x s IH]; [reflexivity|].
  cbn [List.filter]. destruct (is_char c x) eqn:E; cbn [negb]; [exact IH|].
  cbn [existsb]. rewrite E, IH. reflexivity.
Qed.

Lemma body_registries v line f v' :
  registries_ok v -> body v line = Ok (f, v') -> registries_ok v'.
Proof.
  intros Hinv H. unfold body in H.
  repeat case_match; simplify_eq; try exact Hinv;
    destruct Hinv as (He & Hcur & Hn & Hncur);
    (split; [|split; [|split]]); cbn;
    try exact He; try exact Hcur; try exact Hn; try exact Hncur;
    try discriminate;
    try (intros ? [= <-]; cbn;
         first [ constructor
               | apply Forall_app; split;
                 [ eauto
                 | constructor; [apply remove_char_clean | constructor] ] ]);
    try (intros k x Hl;
         apply lookup_insert_Some in Hl as [[<- <-]|[_ Hl]];
         [ split; [reflexivity | eauto] | eauto ]).
Qed.

Lemma loop_registries header :
  forall v v', registries_ok v -> loop v header = Ok v' -> registries_ok v'.
Proof.
  induction header as [|line rest IH]; intros v v' Hinv H; simpl in H.
  - injection H as <-. exact Hinv.
  - destruct (body v line) as [[[] v1]|e] eqn:Hb; simpl in H.
    + apply (IH _ _ (body_registries _ _ _ _ Hinv Hb) H).
    + injection H as <-. apply (body_registries _ _ _ _ Hinv Hb).
    + discriminate.
Qed.

Lemma initial_registries : registries_ok initial.
Proof.
  repeat split; try discriminate;
    intros k x H; rewrite lookup_empty in H; discriminate.
Qed.

(** What the run leaves behind for the post-pass. *)
Lemma read_options_attached header known opts :
  read_options header known = Ok opts ->
  exists v,
    registries_ok v /\ unattached v
    /\ Forall2 (fun o o' =>
                  if known (Option.type o) then o' = o
                  else match enums v !! Option.type o with
                       | Some e => o' = Option.set_enum o e
                       | None =>
                           match nested_structs v !! Option.type o with
                           | Some n => o' = Option.set_nested_struct o n
                           | None => False
                           end
                       end)
               (options v) opts.
Proof.
  intros H. unfold read_options in H.
  destruct (loop initial header) as [v|] eqn:Hloop; [|discriminate].
  simpl in H. unfold finish in H.
  destruct (state v); try discriminate.
  exists v. split; [|split].
  - apply (loop_registries _ _ _ initial_registries Hloop).
  - apply (loop_unattached header initial v); [constructor | exact Hloop].
  - apply resolve_all_attached, H.
Qed.

(** X19.  The enumeration or the nested struct attached to a returned
    option carries the option's type as its name. *)
Theorem attachment_named_by_type
        (header : list str) (known : str -> bool)
        (opts : list Option.t) (o : Option.t) :
  read_options header known = Ok opts ->
  In o opts ->
  (forall e, Option.enum o = Some e -> Enum.name e = Option.type o)
  /\ (forall n, Option.nested_struct o = Some n ->
                NestedStruct.name n = Option.type o).
Proof.
  intros H Ho.
  destruct (read_options_attached _ _ _ H) as (v & Hreg & Hnone & Hall).
  destruct Hreg as (He & _ & Hn & _). unfold unattached in Hnone.
  clear H. revert Hnone Ho. induction Hall as [|p p' ps ps' Hp _ IH];
    intros Hnone Ho; [destruct Ho|].
  apply Forall_cons in Hnone as [[Hpe Hpn] Hnone].
  destruct Ho as [<-|Ho]; [|apply (IH Hnone Ho)].
  destruct (known (Option.type p)).
  - subst p'. rewrite Hpe, Hpn. split; discriminate.
  - destruct (enums v !! Option.type p) as [e0|] eqn:Hl.
    + subst p'. cbn. rewrite Hpn. split; [|discriminate].
      intros e [= <-]. apply (He _ _ Hl).
    + destruct (nested_structs v !! Option.type p) as [n0|] eqn:Hl2;
        [|contradiction].
      subst p'. cbn. rewrite Hpe. split; [discriminate|].
      intros n [= <-]. apply (Hn _ _ Hl2).
Qed.

Lemma attachment_named_by_type_witness :
  (forall e,
      Option.enum
        (Option.set_enum
           (Option.__init__ (L "Field") (L "A") (L "f" ++ [nl]))
           {| Enum.name := L "A"; Enum.comment := L "e";
              Enum.values :=
                [EnumValue.__init__ (L "AA_One") (L "one" ++ [nl])] |})
      = Some e ->
      Enum.name e = L "A")
  /\ (forall n,
         Option.nested_struct
           (Option.set_enum
              (Option.__init__ (L "Field") (L "A") (L "f" ++ [nl]))
              {| Enum.name := L "A"; Enum.comment := L "e";
                 Enum.values :=
                   [EnumValue.__init__ (L "AA_One") (L "one" ++ [nl])] |})
         = Some n ->
         NestedStruct.name n = L "A").
Proof.
  apply (attachment_named_by_type
           [L "struct FormatStyle {"; L "/// e"; L "enum A {"; L "/// one";
            L "  AA_One,"; L "};"; L "/// f"; L "A Field;"; L "};"]
           (fun _ => false)
           [Option.set_enum
              (Option.__init__ (L "Field") (L "A") (L "f" ++ [nl]))
              {| Enum.name := L "A"; Enum.comment := L "e";
                 Enum.values :=
                   [EnumValue.__init__ (L "AA_One") (L "one" ++ [nl])] |}]).
  - vm_compute. reflexivity.
  - left. reflexivity.
Defined.

(** X20.  In what [read_options] returns no enumeration value has a
    comma in its name and no nested field a semicolon: they are deleted
    wherever they stand in the line, not only at its end. *)
Theorem member_names_clean
        (header : list str) (known : str -> bool)
        (opts : list Option.t) (o : Option.t) :
  read_options header known = Ok opts ->
  In o opts ->
  (forall e value,
      Option.enum o = Some e -> In value (Enum.values e) ->
      existsb (is_char ",") (EnumValue.name value) = false)
  /\ (forall n field,
         Option.nested_struct o = Some n ->
         In field (NestedStruct.values n) ->
         existsb (is_char ";") (NestedField.name field) = false).
Proof.
  intros H Ho.
  destruct (read_options_attached _ _ _ H) as (v & Hreg & Hnone & Hall).
  destruct Hreg as (He & _ & Hn & _). unfold unattached in Hnone.
  clear H. revert Hnone Ho. induction Hall as [|p p' ps ps' Hp _ IH];
    intros Hnone Ho; [destruct Ho|].
  apply Forall_cons in Hnone as [[Hpe Hpn] Hnone].
  destruct Ho as [<-|Ho]; [|apply (IH Hnone Ho)].
  destruct (known (Option.type p)).
  - subst p'. rewrite Hpe, Hpn. split; discriminate.
  - destruct (enums v !! Option.type p) as [e0|] eqn:Hl.
    + subst p'. cbn. rewrite Hpn. split; [|discriminate].
      intros e value [= <-] Hin.
      destruct (He _ _ Hl) as [_ Hvalues].
      rewrite Forall_forall in Hvalues. apply Hvalues.
      apply list_elem_of_In, Hin.
    + destruct (nested_structs v !! Option.type p) as [n0|] eqn:Hl2;
        [|contradiction].
      subst p'. cbn. rewrite Hpe. split; [discriminate|].
      intros n field [= <-] Hin.
      destruct (Hn _ _ Hl2) as [_ Hvalues].
      rewrite Forall_forall in Hvalues. apply Hvalues.
      apply list_elem_of_In, Hin.
Qed.

Lemma member_names_clean_witness :
  existsb (is_char ",")
          (EnumValue.name (EnumValue.__init__ (L "AA_One = f(1 2)")
                                              (L "one" ++ [nl])))
  = false.
Proof.
  refine (proj1 (member_names_clean
           [L "struct FormatStyle {"; L "/// e"; L "enum A {"; L "/// one";
            L "  AA_One = f(1, 2),"; L "};"; L "/// f"; L "A Field;"; L "};"]
           (fun _ => false)
           [Option.set_enum
              (Option.__init__ (L "Field") (L "A") (L "f" ++ [nl]))
              {| Enum.name := L "A"; Enum.comment := L "e";
                 Enum.values :=
                   [EnumValue.__init__ (L "AA_One = f(1 2)")
                                       (L "one" ++ [nl])] |}]
           (Option.set_enum
              (Option.__init__ (L "Field") (L "A") (L "f" ++ [nl]))
              {| Enum.name := L "A"; Enum.comment := L "e";
                 Enum.values :=
                   [EnumValue.__init__ (L "AA_One = f(1 2)")
                                       (L "one" ++ [nl])] |})
           _ _)
           {| Enum.name := L "A"; Enum.comment := L "e";
              Enum.values :=
                [EnumValue.__init__ (L "AA_One = f(1 2)")
                                    (L "one" ++ [nl])] |}
           (EnumValue.__init__ (L "AA_One = f(1 2)") (L "one" ++ [nl]))
           _ _).
  - vm_compute. reflexivity.
  - left. reflexivity.
  - reflexivity.
  - left. reflexivity.
Defined.

(* ===================================================================== *)
(** * Blocks of documentation lines *)
(* ===================================================================== *)

Lemma loop_docs rest docs :
  forall v s0,
    collecting s0 = Some (state v) ->
    forallb doc_line docs = true ->
    loop v (docs ++ rest)
    = loop (set_comment (comment v ++ cleaned docs) v) rest.
Proof.
  induction docs as [|d docs IH]; intros v s0 Hs Hdocs.
  - unfold cleaned. cbn [map concat app]. rewrite app_nil_r.
    destruct v; reflexivity.
  - cbn [forallb] in Hdocs. apply andb_prop in Hdocs as [Hd Hdocs].
    unfold doc_line in Hd. cbn [app loop].
    assert (body v d
            = Ok (Continue,
                  set_comment (comment v ++ clean_comment_line (strip d)) v))
      as ->.
    { unfold body. rewrite Hd.
      destruct s0; try discriminate; injection Hs as Hs; rewrite <- Hs;
        reflexivity. }
    cbn [bind]. rewrite (IH _ s0); [|exact Hs | exact Hdocs].
    unfold cleaned. cbn [map concat comment set_comment].
    rewrite <- app_assoc. reflexivity.
Qed.

(** X21.  A block of consecutive documentation lines read where a
    comment may start replaces the comment kept so far by the
    concatenation of the cleaned lines, in order, and changes nothing
    else but the state. *)
Theorem documentation_block
        (v : vars) (s : State) (d : str) (docs rest : list str) :
  collecting (state v) = Some s ->
  forallb doc_line (d :: docs) = true ->
  loop v (d :: docs ++ rest)
  = loop (set_comment (cleaned (d :: docs)) (set_state s v)) rest.
Proof.
  intros Hs Hdocs. cbn [forallb] in Hdocs.
  apply andb_prop in Hdocs as [Hd Hdocs]. unfold doc_line in Hd.
  cbn [loop].
  assert (body v d
          = Ok (Continue,
                set_comment (clean_comment_line (strip d)) (set_state s v)))
    as ->.
  { unfold body. rewrite Hd.
    destruct (state v); try discriminate; injection Hs as <-; reflexivity. }
  cbn [bind]. rewrite (loop_docs rest docs _ (state v)); [|exact Hs | exact Hdocs].
  reflexivity.
Qed.

Lemma documentation_block_witness :
  loop (set_comment (L "old") (set_state InStruct initial))
       (L "  /// First." :: [L "  ///"; L "  /// Second."] ++ [L "int X;"])
  = loop (set_comment (L "First." ++ [nl] ++ [nl] ++ L "Second." ++ [nl])
                      (set_state InFieldComment initial))
         [L "int X;"].
Proof.
  apply (documentation_block
           (set_comment (L "old") (set_state InStruct initial))
           InFieldComment (L "  /// First.")
           [L "  ///"; L "  /// Second."] [L "int X;"]).
  - reflexivity.
  - vm_compute. reflexivity.
Defined.

(* ===================================================================== *)
(** * The rendering of an option *)
(* ===================================================================== *)

Lemma existsb_spaces (p : ascii -> bool) columns :
  p " "%char = false -> existsb p (spaces columns) = false.
Proof.
  intros H. unfold spaces.
  induction (Z.to_nat columns) as [|n IH]; [reflexivity|].
  cbn [repeat existsb]. rewrite H, IH. reflexivity.
Qed.

Lemma existsb_indent_line (p : ascii -> bool) columns l :
  p " "%char = false ->
  existsb p l = false -> existsb p (indent_line columns l) = false.
Proof.
  intros Hp Hl. destruct l as [|c l]; [reflexivity|].
  unfold indent_line. rewrite existsb_app, (existsb_spaces p columns Hp).
  exact Hl.
Qed.

Lemma existsb_indented (p : ascii -> bool) columns :
  p " "%char = false ->
  forall l ls,
    existsb p (join [nl] (l :: ls)) = false ->
    existsb p (join [nl] (map (indent_line columns) (l :: ls))) = false.
Proof.
  intros Hp l ls. revert l.
  induction ls as [|l2 ls IH]; intros l H.
  - apply (existsb_indent_line p columns l Hp H).
  - change (join [nl] (l :: l2 :: ls))
      with (l ++ [nl] ++ join [nl] (l2 :: ls)) in H.
    change (join [nl] (map (indent_line columns) (l :: l2 :: ls)))
      with (indent_line columns l ++ [nl]
              ++ join [nl] (map (indent_line columns) (l2 :: ls))).
    rewrite !existsb_app in *.
    apply orb_false_iff in H as [Hl H]. apply orb_false_iff in H as [Hnl H].
    rewrite (existsb_indent_line p columns l Hp Hl), Hnl, (IH _ H).
    reflexivity.
Qed.

(** X22.  An option of a known type whose comment holds no backslash and
    no [<] is rendered as its header line followed by the comment with
    every non-empty line indented by two columns. *)
Theorem option_rendering (o : Option.t) (l : str) (ls : list str) :
  Option.enum o = None ->
  Option.nested_struct o = None ->
  Option.comment o = join [nl] (l :: ls) ->
  forallb single_line (l :: ls) = true ->
  Option.comment o <> [] ->
  existsb (is_char bslash) (Option.comment o) = false ->
  existsb (is_char "<") (Option.comment o) = false ->
  Option.__str__ o
  = L "**" ++ Option.name o ++ L "** (``" ++ Option.type o ++ L "``)" ++ [nl]
      ++ join [nl] (map (indent_line 2) (l :: ls)).
Proof.
  intros He Hn Hc Hlines Hne Hb Hlt. unfold Option.__str__.
  rewrite He, Hn, Hc in *.
  rewrite (indent_first 2 l ls Hlines Hne).
  rewrite doxygen2rst_fixed; [reflexivity| |].
  - apply existsb_indented; [reflexivity | exact Hb].
  - unfold contains. rewrite no_lt_no_tt; [reflexivity|].
    apply existsb_indented; [reflexivity | exact Hlt].
Qed.

Lemma option_rendering_witness :
  Option.__str__
    (Option.__init__ (L "Width") (L "unsigned")
                     (L "The width." ++ [nl; nl] ++ L "In columns." ++ [nl]))
  = L "**Width** (``unsigned``)" ++ [nl]
      ++ L "  The width." ++ [nl; nl] ++ L "  In columns.".
Proof.
  apply (option_rendering
           (Option.__init__ (L "Width") (L "unsigned")
              (L "The width." ++ [nl; nl] ++ L "In columns." ++ [nl]))
           (L "The width.") [[]; L "In columns."]).
  - reflexivity.
  - reflexivity.
  - vm_compute. reflexivity.
  - vm_compute. reflexivity.
  - vm_compute. discriminate.
  - vm_compute. reflexivity.
  - vm_compute. reflexivity.
Defined.
